(** * Traffic grid environment: TrafficLight and Environment.act

    A shallow embedding of [environment_trading.py]: the periodically
    switching traffic light, the environment constructor, agent
    registration and the adjudication step [Environment.act], followed
    by the properties of the reward scheme, the violation classes, the
    toroidal movement and the failure modes.

    Python objects are modelled by records, dictionaries by finite maps
    (an association list for the ordered dictionary of intersections),
    and a method call is a computation that threads the environment and
    either returns a value or raises an exception; whatever was mutated
    before the exception stays mutated. *)

From stdpp Require Import base option list gmap strings.
From Stdlib Require Import ZArith Lia QArith Lqa.

Local Open Scope Z_scope.
Local Open Scope string_scope.

(** ** Exceptions and computations over a mutable object *)

Inductive exn : Type :=
| AssertionError (msg : string)
| TypeError
| KeyError
| IndexError
| AttributeError
| ZeroDivisionError
| OverflowError.

(** The two assertion failures of [act], under the names of the error
    taxonomy. *)
Definition UnknownAgentError : exn := AssertionError "Unknown agent!".
Definition InvalidActionError : exn := AssertionError "Invalid action!".

(** A computation on a mutable object of type [S]: the final object is
    returned on both outcomes. *)
Definition M (S A : Type) : Type := S -> S * (exn + A).

#[global] Instance M_ret {S} : MRet (M S) := fun A a s => (s, inr a).

#[global] Instance M_bind {S} : MBind (M S) := fun A B k c s =>
  match c s with
  | (s', inr a) => k a s'
  | (s', inl e) => (s', inl e)
  end.

Definition raise {S A} (e : exn) : M S A := fun s => (s, inl e).
Definition get {S} : M S S := fun s => (s, inr s).
Definition modify {S} (f : S -> S) : M S unit := fun s => (f s, inr tt).

Definition assert {S} (b : bool) (msg : string) : M S unit :=
  if b then mret tt else raise (AssertionError msg).

(** [d[k]] on a dictionary: [KeyError] when the key is missing. *)
Definition getitem {S A} (o : option A) : M S A :=
  match o with Some a => mret a | None => raise KeyError end.

(** A call that cannot touch the object but may raise. *)
Definition lift {S A} (r : exn + A) : M S A :=
  match r with inr a => mret a | inl e => raise e end.

(** [random.choice(seq)] with the generator's draw [i] made explicit:
    first on a sequence known to be non-empty, then in general. *)
Definition random_choice_ne {A} (a : A) (l : list A) (i : nat) : A :=
  nth (i `mod` S (length l))%nat (a :: l) a.

Definition random_choice {A} (l : list A) (i : nat) : exn + A :=
  match l with
  | [] => inl IndexError
  | a :: l' => inr (random_choice_ne a l' i)
  end.

(** [range(a, b)] *)
Definition range (a b : Z) : list Z := seqZ a (b - a).

(** ** TrafficLight *)

Module TrafficLight.

Record t : Type := mk { state : bool; period : Z; last_updated : Z }.

(** [valid_states = [True, False]]: True = NS open; False = EW open *)
Definition valid_states : list bool := [true; false].

(** [__init__(state=None, period=None)]; [d1], [d2] are the draws used
    when an argument is left out. *)
Definition __init__ (state0 : option bool) (period0 : option Z) (d1 d2 : nat) : t :=
  mk (match state0 with
      | Some b => b
      | None => random_choice_ne true [false] d1
      end)
     (match period0 with
      | Some p => p
      | None => random_choice_ne 2 [3; 4; 5] d2
      end)
     0.

Definition reset (self : t) : t :=
  mk (state self) (period self) 0.

Definition update (self : t) (tick : Z) : t :=
  if decide (tick - last_updated self >= period self)
  then mk (negb (state self)) (period self) tick
  else self.

(** The light after a whole sequence of ticks. *)
Definition run (self : t) (ticks : list Z) : t := foldl update self ticks.

(** The number of phase changes along a sequence of ticks. *)
Fixpoint flips (self : t) (ticks : list Z) : nat :=
  match ticks with
  | [] => 0%nat
  | tick :: rest =>
      ((if bool_decide (state (update self tick) = state self) then 0 else 1)
       + flips (update self tick) rest)%nat
  end.

End TrafficLight.

(** ** Agent (base class) *)

Definition Action : Type := option string.

Module Agent.

(** [ident] is the identity of the object: it is what the dictionary
    [agent_states] hashes and what [is] compares. The attribute [env]
    is a back reference and is left out; [state] is opaque to the
    environment. *)
Record t : Type := mk {
  ident : nat;
  state : option string;
  next_waypoint : Action;
  primary_agent : bool
}.

Definition __init__ (id : nat) : t := mk id None None false.
Definition get_state (self : t) : option string := state self.
Definition get_next_waypoint (self : t) : Action := next_waypoint self.

End Agent.

(** ** Environment *)

(** A stored coordinate is a Python list or a Python tuple of two ints:
    [create_agent] stores a list, [act] stores a tuple. Only a tuple
    can be hashed, and a list never equals a tuple, so equality of
    [pyseq] is Python's [==]. *)
Inductive pyseq : Type :=
| PList (p : Z * Z)
| PTuple (p : Z * Z).

#[global] Instance pyseq_eq_dec : EqDecision pyseq.
Proof. solve_decision. Defined.

(** [(l[0], l[1])] *)
Definition items (l : pyseq) : Z * Z :=
  match l with PList p => p | PTuple p => p end.

(** An ordered dictionary keyed by coordinates, in insertion order. *)
Fixpoint od_get {V} (d : list ((Z * Z) * V)) (k : Z * Z) : option V :=
  match d with
  | [] => None
  | (k', v) :: d' => if decide (k' = k) then Some v else od_get d' k
  end.

Fixpoint od_set {V} (d : list ((Z * Z) * V)) (k : Z * Z) (v : V)
  : list ((Z * Z) * V) :=
  match d with
  | [] => [(k, v)]
  | (k', v') :: d' =>
      if decide (k' = k) then (k, v) :: d' else (k', v') :: od_set d' k v
  end.

Definition od_keys {V} (d : list ((Z * Z) * V)) : list (Z * Z) := d.*1.

(** Lines 53-58 of [Environment.__init__]: the roads between
    intersections, in the order they are appended. (Lines 60-66 append
    the boundary stubs, whose outer ends have float coordinates; they
    are not modelled.) *)
Definition inner_roads (keys : list (Z * Z)) : list ((Z * Z) * (Z * Z)) :=
  a ← keys;
  b ← keys;
  if decide (a = b) then []
  else if decide (Z.abs (a.1 - b.1) + Z.abs (a.2 - b.2) = 1) then [(a, b)]
  else [].

Module Environment.

Section WithFloat.

(** Python floats and their arithmetic are kept abstract. [of_int] is
    the promotion of an int to a float, taken to be total (an int
    beyond the range of a double is not modelled); [math_pow] is [None]
    on [OverflowError]. Division by zero is decided on the int divisor
    before [fdiv] is used. *)
Context {float : Type}.
Variable of_int : Z -> float.
Variables fadd fsub fmul fdiv : float -> float -> float.
Variable math_pow : float -> float -> option float.

(** A number that is an int or a float, as [penalty] is. *)
Inductive num : Type :=
| NInt (z : Z)
| NFloat (f : float).

Definition to_float (n : num) : float :=
  match n with NInt z => of_int z | NFloat f => f end.

(** [a - b] *)
Definition num_sub (a b : num) : num :=
  match a, b with
  | NInt x, NInt y => NInt (x - y)
  | _, _ => NFloat (fsub (to_float a) (to_float b))
  end.

(** [r += n] on a float [r] *)
Definition float_iadd (r : float) (n : num) : float := fadd r (to_float n).

(** The dictionary stored per agent; the keys ['destination'] and
    ['deadline'] may be missing. *)
Record AgentState : Type := mkState {
  location : pyseq;
  heading : Z * Z;
  destination : option pyseq;
  deadline : option Z
}.

(** The entries of the dictionary of sensed inputs that [act] reads
    (['oncoming'], ['left'] and ['right'] of [valid_inputs]); the entry
    ['light'] is never read and is left out. *)
Record Inputs : Type := mkInputs {
  in_oncoming : Action;
  in_left : Action;
  in_right : Action
}.

(** [step_data], a dictionary filled key by key. *)
Record StepData : Type := mkStep {
  sd_t : option Z;
  sd_violation : option Z;
  sd_state : option (option string);
  sd_deadline : option Z;
  sd_waypoint : option Action;
  sd_inputs : option Inputs;
  sd_light : option string;
  sd_action : option Action;
  sd_reward : option float
}.

Record TrialData : Type := mkTrial {
  testing : bool;
  initial_distance : Z;
  initial_deadline : Z;
  net_reward : float;
  final_deadline : option Z;
  actions : gmap Z Z;
  trial_success : Z
}.

(** The attributes of an [Environment]. [block_size], [hang] and
    [roads] only serve the renderer and are left out. *)
Record env : Type := mk {
  verbose : bool;
  done : bool;
  t : Z;
  agent_states : gmap nat AgentState;
  step_data : StepData;
  success : option bool;
  grid_size : Z * Z;
  bounds : Z * Z * Z * Z;
  intersections : list ((Z * Z) * TrafficLight.t);
  primary_agent : option nat;
  enforce_deadline : bool;
  trial_data : TrialData
}.

Definition valid_actions : list Action :=
  [None; Some "forward"; Some "left"; Some "right"].

Definition valid_headings : list (Z * Z) := [(1, 0); (0, -1); (-1, 0); (0, 1)].

(** *** Attribute and key assignments *)

Definition set_done (b : bool) (e : env) : env :=
  mk (verbose e) b (t e) (agent_states e) (step_data e) (success e)
     (grid_size e) (bounds e) (intersections e) (primary_agent e)
     (enforce_deadline e) (trial_data e).

Definition set_success (b : option bool) (e : env) : env :=
  mk (verbose e) (done e) (t e) (agent_states e) (step_data e) b
     (grid_size e) (bounds e) (intersections e) (primary_agent e)
     (enforce_deadline e) (trial_data e).

Definition set_agent_states (m : gmap nat AgentState) (e : env) : env :=
  mk (verbose e) (done e) (t e) m (step_data e) (success e)
     (grid_size e) (bounds e) (intersections e) (primary_agent e)
     (enforce_deadline e) (trial_data e).

Definition set_step_data (d : StepData) (e : env) : env :=
  mk (verbose e) (done e) (t e) (agent_states e) d (success e)
     (grid_size e) (bounds e) (intersections e) (primary_agent e)
     (enforce_deadline e) (trial_data e).

Definition set_trial_data (d : TrialData) (e : env) : env :=
  mk (verbose e) (done e) (t e) (agent_states e) (step_data e) (success e)
     (grid_size e) (bounds e) (intersections e) (primary_agent e)
     (enforce_deadline e) d.

Definition set_primary (a : option nat) (b : bool) (e : env) : env :=
  mk (verbose e) (done e) (t e) (agent_states e) (step_data e) (success e)
     (grid_size e) (bounds e) (intersections e) a b (trial_data e).

Definition set_trial_success (z : Z) (d : TrialData) : TrialData :=
  mkTrial (testing d) (initial_distance d) (initial_deadline d)
          (net_reward d) (final_deadline d) (actions d) z.

Definition set_final_deadline (z : option Z) (d : TrialData) : TrialData :=
  mkTrial (testing d) (initial_distance d) (initial_deadline d)
          (net_reward d) z (actions d) (trial_success d).

Definition set_net_reward (r : float) (d : TrialData) : TrialData :=
  mkTrial (testing d) (initial_distance d) (initial_deadline d)
          r (final_deadline d) (actions d) (trial_success d).

Definition set_actions (m : gmap Z Z) (d : TrialData) : TrialData :=
  mkTrial (testing d) (initial_distance d) (initial_deadline d)
          (net_reward d) (final_deadline d) m (trial_success d).

Definition set_location_heading (l : pyseq) (h : Z * Z) (s : AgentState)
  : AgentState :=
  mkState l h (destination s) (deadline s).

(** *** Construction: [__init__], [create_agent], [set_primary_agent] *)

(** [draws x y] are the two draws of the [TrafficLight()] built for the
    intersection [(x, y)]. [num_dummies] is not used by the source. *)
Definition __init__ (verbose0 : bool) (grid_size0 : Z * Z)
    (draws : Z -> Z -> nat * nat) : env :=
  let bounds0 := (1, 2, grid_size0.1, grid_size0.2 + 1) in
  let '(b0, b1, b2, b3) := bounds0 in
  let intersections0 :=
    foldl (fun d x =>
             foldl (fun d y =>
                      od_set d (x, y)
                        (TrafficLight.__init__ None None
                           (draws x y).1 (draws x y).2))
                   d (range b1 (b3 + 1)))
          [] (range b0 (b2 + 1)) in
  mk verbose0 false 0 ∅
     (mkStep None None None None None None None None None)
     None grid_size0 bounds0 intersections0 None false
     (mkTrial false 0 0 (of_int 0) None
        (list_to_map [(0, 0); (1, 0); (2, 0); (3, 0); (4, 0)]) 0).

(** [agent] is the object [agent_class(self, ...)] has built; [d] is
    the draw of [random.choice], applied to the list of keys (as
    [keys()] is in Python 2, which the source is written for). *)
Definition create_agent (agent : Agent.t) (d : nat) : M env Agent.t :=
  self ← get;
  k ← lift (random_choice (od_keys (intersections self)) d);
  modify (set_agent_states
            (<[Agent.ident agent := mkState (PList k) (0, 1) None None]>
               (agent_states self)));;
  mret agent.

Definition set_primary_agent (agent : Agent.t) (enforce : bool)
  : M env Agent.t :=
  modify (set_primary (Some (Agent.ident agent)) enforce);;
  mret (Agent.mk (Agent.ident agent) (Agent.state agent)
                 (Agent.next_waypoint agent) true).

(** The class invariant of the road network: every intersection lies
    inside [bounds]. *)
Definition in_bounds (bnd : Z * Z * Z * Z) (p : Z * Z) : bool :=
  let '(b0, b1, b2, b3) := bnd in
  bool_decide (b0 <= p.1 <= b2) && bool_decide (b1 <= p.2 <= b3).

Definition grid_ok (self : env) : bool :=
  forallb (in_bounds (bounds self)) (od_keys (intersections self)).

(** *** The adjudication step [act] *)

(** [self.intersections[location]]: a list cannot be hashed. *)
Definition intersection_at (self : env) (l : pyseq) : exn + TrafficLight.t :=
  match l with
  | PList _ => inl TypeError
  | PTuple p =>
      match od_get (intersections self) p with
      | Some tl => inr tl
      | None => inl KeyError
      end
  end.

(** Line 109: the colour of the light for a heading. *)
Definition light_for (tl_state : bool) (hd : Z * Z) : string :=
  if (tl_state && bool_decide (hd.2 ≠ 0))
     || (negb tl_state && bool_decide (hd.1 ≠ 0))
  then "green" else "red".

Definition light_at (self : env) (state : AgentState) : exn + string :=
  match intersection_at self (location state) with
  | inl e => inl e
  | inr tl => inr (light_for (TrafficLight.state tl) (heading state))
  end.

(** Line 123: [2 * random.random() - 1] *)
Definition base_reward (random : float) : float :=
  fsub (fmul (of_int 2) random) (of_int 1).

(** Lines 127-135: the penalty factor from the remaining deadline. *)
Definition deadline_penalty (self : env) (agent : Agent.t) (state : AgentState)
  : exn + num :=
  let gradient := 10 in
  match (if Agent.primary_agent agent then
           match deadline state with
           | None => inl KeyError
           | Some d =>
               if decide (t self + d = 0) then inl ZeroDivisionError
               else inr (fdiv (fmul (of_int (t self)) (of_int 1))
                              (of_int (t self + d)))
           end
         else inr (of_int 0)) with
  | inl e => inl e
  | inr fnc =>
      if enforce_deadline self then
        match math_pow (of_int gradient) fnc with
        | None => inl OverflowError
        | Some p =>
            inr (NFloat (fdiv (fsub p (of_int 1)) (of_int (gradient - 1))))
        end
      else inr (NInt 0)
  end.

(** Lines 137-168: the violation class of the action and the heading
    the agent would take. *)
Definition classify (action : Action) (light : string) (inputs : Inputs)
    (hd : Z * Z) : Z * (Z * Z) :=
  if decide (action = Some "forward") then
    if decide (light ≠ "green") then
      if decide (in_left inputs = Some "forward"
                 ∨ in_right inputs = Some "forward")
      then (4, hd) else (2, hd)
    else (0, hd)
  else if decide (action = Some "left") then
    if decide (light ≠ "green") then
      if decide (in_left inputs = Some "forward"
                 ∨ in_right inputs = Some "forward")
      then (4, hd)
      else if decide (in_oncoming inputs = Some "right")
      then (4, hd) else (2, hd)
    else
      if decide (in_oncoming inputs = Some "right"
                 ∨ in_oncoming inputs = Some "forward")
      then (3, hd)
      else (0, (hd.2, - hd.1))
  else if decide (action = Some "right") then
    if decide (light ≠ "green" ∧ in_left inputs = Some "forward")
    then (3, hd)
    else (0, (- hd.2, hd.1))
  else if decide (action = None) then
    if decide (light = "green" ∧ in_oncoming inputs ≠ Some "left")
    then (1, hd) else (0, hd)
  else (0, hd).

(** Lines 173-178: what a legal move adds to the reward. *)
Definition legal_bonus (agent : Agent.t) (action : Action) (light : string)
    (penalty : num) : num :=
  if decide (action = Agent.get_next_waypoint agent) then
    num_sub (NInt 2) penalty
  else if decide (action = None ∧ light ≠ "green") then
    num_sub (NInt 2) penalty
  else num_sub (NInt 1) penalty.

(** Lines 188-195: the reward after a violation. *)
Definition punish (reward : float) (violation : Z) : float :=
  if decide (violation = 1) then fadd reward (of_int (-5))
  else if decide (violation = 2) then fadd reward (of_int (-10))
  else if decide (violation = 3) then fadd reward (of_int (-20))
  else if decide (violation = 4) then fadd reward (of_int (-40))
  else reward.

(** [a % b] *)
Definition py_mod (a b : Z) : exn + Z :=
  if decide (b = 0) then inl ZeroDivisionError else inr (a `mod` b).

(** Lines 182-183: the wrapped-around successor of a coordinate. *)
Definition wrap_move (bnd : Z * Z * Z * Z) (p hd : Z * Z) : exn + (Z * Z) :=
  let '(b0, b1, b2, b3) := bnd in
  match py_mod (p.1 + hd.1 - b0) (b2 - b0 + 1) with
  | inl e => inl e
  | inr x =>
      match py_mod (p.2 + hd.2 - b1) (b3 - b1 + 1) with
      | inl e => inl e
      | inr y => inr (x + b0, y + b1)
      end
  end.

(** The local variables of [act] when it returns. *)
Record Locals : Type := mkLocals {
  l_light : string;
  l_inputs : Inputs;
  l_base : float;
  l_penalty : num;
  l_violation : Z;
  l_heading : Z * Z;
  l_reward : float
}.

(** Modelled from the spec: the method [sense], which [act] calls at
    line 110 and which the source does not define. It is a parameter
    of [act]: an observation of the environment for an agent, which
    mutates nothing and raises nothing. The attribute is looked up on
    the object at the call; [None] stands for an object on which
    neither the class nor the instance has it. *)
Definition Sense : Type := option (env -> Agent.t -> Inputs).

(** The class body of the source defines no [sense]. *)
Definition sense : Sense := None.

Definition getattr_sense (s : Sense) : M env (env -> Agent.t -> Inputs) :=
  match s with Some f => mret f | None => raise AttributeError end.

(** Lines 198-230 for the primary agent: goal check and metrics. *)
Definition record_primary (agent : Agent.t) (action : Action)
    (state : AgentState) (light : string) (inputs : Inputs)
    (violation : Z) (reward : float) : M env unit :=
  dest ← getitem (destination state);
  (if decide (location state = dest) then
     d ← getitem (deadline state);
     (if decide (d >= 0) then
        self ← get;
        modify (set_trial_data (set_trial_success 1 (trial_data self)))
      else mret tt);;
     modify (set_done true);;
     modify (set_success (Some true))
   else mret tt);;
  self ← get;
  let sd := step_data self in
  let sd1 := mkStep (Some (t self)) (Some violation)
               (Some (Agent.get_state agent)) (sd_deadline sd)
               (sd_waypoint sd) (sd_inputs sd) (sd_light sd)
               (sd_action sd) (sd_reward sd) in
  modify (set_step_data sd1);;
  d ← getitem (deadline state);
  modify (set_step_data
            (mkStep (sd_t sd1) (sd_violation sd1) (sd_state sd1) (Some d)
               (Some (Agent.get_next_waypoint agent)) (Some inputs)
               (Some light) (Some action) (Some reward)));;
  self ← get;
  modify (set_trial_data (set_final_deadline (Some (d - 1)) (trial_data self)));;
  self ← get;
  modify (set_trial_data
            (set_net_reward (fadd (net_reward (trial_data self)) reward)
               (trial_data self)));;
  self ← get;
  n ← getitem (actions (trial_data self) !! violation);
  modify (set_trial_data
            (set_actions (<[violation := n + 1]> (actions (trial_data self)))
               (trial_data self))).

(** [act(agent, action)] with its local variables; [random] is the
    value [random.random()] returns at line 123. The debugging output
    under [verbose] is left out. *)
Definition act_locals (sense_attr : Sense) (agent : Agent.t)
    (action : Action) (random : float) : M env Locals :=
  self ← get;
  assert (bool_decide (is_Some (agent_states self !! Agent.ident agent)))
         "Unknown agent!";;
  assert (bool_decide (action ∈ valid_actions)) "Invalid action!";;
  state ← getitem (agent_states self !! Agent.ident agent);
  light ← lift (light_at self state);
  sense_fn ← getattr_sense sense_attr;
  let inputs := sense_fn self agent in
  let base := base_reward random in
  penalty ← lift (deadline_penalty self agent state);
  let '(violation, hd) := classify action light inputs (heading state) in
  '(reward, state') ←
    (if decide (violation = 0) then
       let reward := float_iadd base (legal_bonus agent action light penalty) in
       if decide (action ≠ None) then
         p' ← lift (wrap_move (bounds self) (items (location state)) hd);
         let state' := set_location_heading (PTuple p') hd state in
         modify (set_agent_states
                   (<[Agent.ident agent := state']> (agent_states self)));;
         mret (reward, state')
       else mret (reward, state)
     else mret (punish base violation, state));
  (if decide (primary_agent self = Some (Agent.ident agent)) then
     record_primary agent action state' light inputs violation reward
   else mret tt);;
  mret (mkLocals light inputs base penalty violation hd reward).

(** [act(agent, action)]: what the caller gets is the reward. *)
Definition act (sense_attr : Sense) (agent : Agent.t) (action : Action)
    (random : float) : M env float :=
  L ← act_locals sense_attr agent action random;
  mret (l_reward L).

End WithFloat.

End Environment.

(** ** A symbolic reading of float arithmetic

    Float expressions left uninterpreted: the free instance of the
    operations the environment is parametrised by. *)

Inductive fexpr : Type :=
| FRandom
| FInt (z : Z)
| FAdd (a b : fexpr)
| FSub (a b : fexpr)
| FMul (a b : fexpr)
| FDiv (a b : fexpr)
| FPow (a b : fexpr).

Module Sym.

Definition math_pow (a b : fexpr) : option fexpr := Some (FPow a b).

Definition act_locals :=
  @Environment.act_locals fexpr FInt FAdd FSub FMul FDiv math_pow.
Definition act :=
  @Environment.act fexpr FInt FAdd FSub FMul FDiv math_pow.
Definition __init__ := @Environment.__init__ fexpr FInt.

Definition create_agent := @Environment.create_agent fexpr.
Definition set_primary_agent := @Environment.set_primary_agent fexpr.

Abbreviation env := (@Environment.env fexpr).
Abbreviation Locals := (@Environment.Locals fexpr).

(** The environment a computation ends in, and the locals it returns
    (those of an idle call when it raised). *)
Definition final_env {A} (r : env * (exn + A)) : env := r.1.

Definition returned (r : env * (exn + Locals)) : Locals :=
  match r.2 with
  | inr L => L
  | inl _ =>
      Environment.mkLocals "red" (Environment.mkInputs None None None)
        (FInt 0) (Environment.NInt 0) 0 (0, 0) (FInt 0)
  end.

(** An 8 x 6 grid in which every light is NS-open with period 3. *)
Definition env0 : env := __init__ false (8, 6) (fun _ _ => (0, 1)%nat).

(** A freshly built agent, and the same agent told to go forward. *)
Definition car : Agent.t := Agent.__init__ 7.
Definition car_forward : Agent.t := Agent.mk 7 None (Some "forward") false.

(** [car] registered by [create_agent]: its location is a list. *)
Definition env_created : env := final_env (create_agent car 0 env0).

(** A trial set up for agent 7: the stored state has a tuple
    location, a destination and a deadline. *)
Definition place (st : Environment.AgentState) (e : env) : env :=
  Environment.set_agent_states (<[7%nat := st]> (Environment.agent_states e)) e.

(** A subclass whose [sense] reports fixed inputs. *)
Definition sense_fixed (i : Environment.Inputs) : @Environment.Sense fexpr :=
  Some (fun _ _ => i).

Definition quiet : Environment.Inputs :=
  Environment.mkInputs None None None.
Definition cross_left : Environment.Inputs :=
  Environment.mkInputs None (Some "forward") None.

(** Heading south on the south boundary, destination just across the
    wrap, deadline already overrun; the agent is the primary one. *)
Definition env_south : env :=
  final_env
    (set_primary_agent car_forward false
       (place (Environment.mkState (PTuple (3, 7)) (0, 1)
                 (Some (PTuple (3, 2))) (Some (-1))) env0)).
Definition primary_forward : Agent.t := Agent.mk 7 None (Some "forward") true.

Definition run_south :=
  act_locals (sense_fixed quiet) primary_forward (Some "forward") FRandom
    env_south.

(** Heading east at (2, 3): the light, NS-open, is red. *)
Definition env_east : env :=
  place (Environment.mkState (PTuple (2, 3)) (1, 0) None None) env0.

Definition run_red_cross :=
  act_locals (sense_fixed cross_left) car (Some "forward") FRandom env_east.

(** Turning left on green at (2, 3), heading south. *)
Definition env_turn : env :=
  place (Environment.mkState (PTuple (2, 3)) (0, 1) None None) env0.

Definition run_left :=
  act_locals (sense_fixed quiet) car (Some "left") FRandom env_turn.

(** The same grid with every light EW-open, and the agent at (2, 3)
    heading east. *)
Definition env_ew : env :=
  place (Environment.mkState (PTuple (2, 3)) (1, 0) None None)
        (__init__ false (8, 6) (fun _ _ => (1, 1)%nat)).

Definition run_east :=
  act_locals (sense_fixed quiet) car_forward (Some "forward") FRandom env_ew.

(** Turning right on red at (2, 3), heading east. *)
Definition run_right :=
  act_locals (sense_fixed quiet) car (Some "right") FRandom env_east.

(** Standing still on green at (2, 3), heading south. *)
Definition run_idle :=
  act_locals (sense_fixed quiet) car None FRandom env_turn.


End Sym.


(** ** Properties of the traffic light *)

Module TrafficLightSpec.
Import TrafficLight.

Lemma update_cases (l : t) (tick : Z) :
  (tick - last_updated l >= period l
   ∧ update l tick = mk (negb (state l)) (period l) tick)
  ∨ (¬ tick - last_updated l >= period l ∧ update l tick = l).
Proof.
  unfold update. destruct (decide _); [left | right]; done.
Qed.

Lemma flips_le_length (l : t) (ticks : list Z) :
  (flips l ticks <= length ticks)%nat.
Proof.
  revert l. induction ticks as [|tick rest IH]; intros l; simpl; [lia|].
  specialize (IH (update l tick)). case_bool_decide; lia.
Qed.

(** C7: after any sequence of ticks, [update tick] changes the phase
    exactly when [tick - last_updated >= period]; the change is a
    single negation of the phase, it comes with [last_updated = tick],
    and without it the light is untouched; the period never changes;
    over a whole sequence there are at most as many phase changes as
    calls; [reset] sets [last_updated] to 0 and nothing else. *)
Theorem update_flips_iff_period_elapsed (l0 : t) (ticks : list Z) (tick : Z) :
  let l := run l0 ticks in
  let l' := update l tick in
  (state l' ≠ state l ↔ tick - last_updated l >= period l)
  ∧ (state l' = negb (state l) ↔ tick - last_updated l >= period l)
  ∧ (state l' ≠ state l → last_updated l' = tick)
  ∧ (state l' = state l → l' = l)
  ∧ period l' = period l
  ∧ (flips l0 ticks <= length ticks)%nat
  ∧ last_updated (reset l) = 0
  ∧ state (reset l) = state l
  ∧ period (reset l) = period l.
Proof.
  intros l l'. subst l'.
  destruct (update_cases l tick) as [[Hge ->] | [Hlt ->]]; simpl.
  - repeat split; try done; try (by destruct (state l));
      try apply flips_le_length.
  - repeat split; try done; try (by destruct (state l));
      try apply flips_le_length.
Qed.

End TrafficLightSpec.

(** ** Properties of the environment *)

Section Properties.

Context {float : Type}.
Variable of_int : Z -> float.
Variables fadd fsub fmul fdiv : float -> float -> float.
Variable math_pow : float -> float -> option float.

Import Environment.

Local Abbreviation env := (@Environment.env float).
Local Abbreviation act_locals :=
  (Environment.act_locals of_int fadd fsub fmul fdiv math_pow).
Local Abbreviation act :=
  (Environment.act of_int fadd fsub fmul fdiv math_pow).
Local Abbreviation record_primary := (Environment.record_primary fadd).
Local Abbreviation deadline_penalty :=
  (Environment.deadline_penalty of_int fsub fmul fdiv math_pow).

Local Abbreviation float_iadd := (Environment.float_iadd of_int fadd).
Local Abbreviation num_sub := (Environment.num_sub of_int fsub).
Local Abbreviation legal_bonus := (Environment.legal_bonus of_int fsub).
Local Abbreviation punish := (Environment.punish of_int fadd).

(** Arithmetic of the wrap-around on one axis [lo..hi]. *)
Lemma wrap_in_range lo hi a :
  lo <= hi -> lo <= a `mod` (hi - lo + 1) + lo <= hi.
Proof.
  intros Hle. pose proof (Z.mod_pos_bound a (hi - lo + 1)). lia.
Qed.

Lemma wrap_past_high lo hi :
  lo <= hi -> (hi + 1 - lo) `mod` (hi - lo + 1) + lo = lo.
Proof.
  intros Hle. replace (hi + 1 - lo) with (hi - lo + 1) by lia.
  rewrite Z_mod_same_full. lia.
Qed.

Lemma wrap_past_low lo hi :
  lo <= hi -> (lo + -1 - lo) `mod` (hi - lo + 1) + lo = hi.
Proof.
  intros Hle.
  replace (lo + -1 - lo) with (hi - lo + (-1) * (hi - lo + 1)) by lia.
  rewrite Z_mod_plus_full, Z.mod_small; lia.
Qed.

Lemma wrap_stay lo hi a :
  lo <= a <= hi -> (a + 0 - lo) `mod` (hi - lo + 1) + lo = a.
Proof.
  intros Hle. rewrite Z.mod_small; lia.
Qed.

Lemma od_get_keys {V} (d : list ((Z * Z) * V)) k v :
  od_get d k = Some v -> In k (od_keys d).
Proof.
  induction d as [|[k' v'] d IH]; simpl; [done|].
  case_decide; [intros _; by left | intros Hget; right; by apply IH].
Qed.

Ltac unfold_goal_monad :=
  cbv beta iota delta
    [mbind M_bind mret M_ret getitem lift get modify raise assert].

Ltac unfold_monad H :=
  cbv beta iota delta
    [mbind M_bind mret M_ret getitem lift get modify raise assert] in H.

(** What a returning run of the goal check and metrics update did. *)
Lemma record_primary_inv agent action st light inputs v r (e e' : env) u :
  record_primary agent action st light inputs v r e = (e', inr u) ->
  agent_states e' = agent_states e
  /\ exists dest d,
      destination st = Some dest /\ deadline st = Some d
      /\ done e' = (if decide (location st = dest) then true else done e)
      /\ success e' =
           (if decide (location st = dest) then Some true else success e)
      /\ trial_success (trial_data e') =
           (if decide (location st = dest /\ d >= 0) then 1
            else trial_success (trial_data e))
      /\ sd_violation (step_data e') = Some v
      /\ sd_reward (step_data e') = Some r
      /\ final_deadline (trial_data e') = Some (d - 1)
      /\ net_reward (trial_data e') = fadd (net_reward (trial_data e)) r.
Proof.
  intros H. unfold Environment.record_primary in H.
  destruct (destination st) as [dest|]; unfold_monad H; [|done].
  destruct (deadline st) as [d|]; [|by case_decide].
  repeat case_decide; simpl in H;
    (destruct (actions (trial_data e) !! v); simpl in H; [|done]);
    injection H as <- _; (split; [done|]); exists dest, d;
    repeat case_decide; try tauto; done.
Qed.

(** The last step of [act]: goal check and metrics for the primary
    agent, nothing for any other. *)
Lemma act_tail_inv (e s e' : env) agent action st1 light inputs v reward
    (L L' : @Locals float) :
  (let (s', s1) :=
     (if decide (primary_agent e = Some (Agent.ident agent))
      then record_primary agent action st1 light inputs v reward
      else fun s1 : env => (s1, inr ())) s in
   match s1 with
   | inl e0 => (s', inl e0)
   | inr _ => (s', inr L')
   end) = (e', inr L) ->
  L = L'
  /\ agent_states e' = agent_states s
  /\ (primary_agent e = Some (Agent.ident agent) ->
      exists dest d,
        destination st1 = Some dest /\ deadline st1 = Some d
        /\ done e' = (if decide (location st1 = dest) then true else done s)
        /\ success e' =
             (if decide (location st1 = dest) then Some true else success s)
        /\ trial_success (trial_data e') =
             (if decide (location st1 = dest /\ d >= 0) then 1
              else trial_success (trial_data s))
        /\ sd_violation (step_data e') = Some v
        /\ sd_reward (step_data e') = Some reward
        /\ final_deadline (trial_data e') = Some (d - 1)
        /\ net_reward (trial_data e') = fadd (net_reward (trial_data s)) reward)
  /\ (primary_agent e ≠ Some (Agent.ident agent) -> e' = s).
Proof.
  intros Ht. case_decide as Hp.
  - destruct (record_primary _ _ _ _ _ _ _ s) as [e1 [?|[]]] eqn:Hrp;
      [done|].
    injection Ht as <- <-.
    apply record_primary_inv in Hrp as (Hag & Hrest).
    split; [done|]. split; [done|]. split; [|done]. by intros _.
  - injection Ht as <- <-. done.
Qed.

(** Everything a returning call of [act] has computed and stored. *)
Lemma act_locals_inv sa agent action rnd (e e' : env) L :
  act_locals sa agent action rnd e = (e', inr L) ->
  exists st f,
    agent_states e !! Agent.ident agent = Some st
    /\ action ∈ valid_actions
    /\ sa = Some f
    /\ light_at e st = inr (l_light L)
    /\ l_inputs L = f e agent
    /\ l_base L = fsub (fmul (of_int 2) rnd) (of_int 1)
    /\ deadline_penalty e agent st = inr (l_penalty L)
    /\ classify action (l_light L) (l_inputs L) (heading st)
        = (l_violation L, l_heading L)
    /\ l_reward L =
        (if decide (l_violation L = 0)
         then float_iadd (l_base L)
                (legal_bonus agent action (l_light L) (l_penalty L))
         else punish (l_base L) (l_violation L))
    /\ (if decide (l_violation L = 0 /\ action ≠ None)
        then exists p',
            wrap_move (bounds e) (items (location st)) (l_heading L) = inr p'
            /\ agent_states e' =
                <[Agent.ident agent :=
                    set_location_heading (PTuple p') (l_heading L) st]>
                  (agent_states e)
        else agent_states e' = agent_states e)
    /\ (primary_agent e = Some (Agent.ident agent) ->
        exists st' dest d,
          agent_states e' !! Agent.ident agent = Some st'
          /\ destination st' = Some dest /\ deadline st' = Some d
          /\ done e' = (if decide (location st' = dest) then true else done e)
          /\ success e' =
               (if decide (location st' = dest) then Some true else success e)
          /\ trial_success (trial_data e') =
               (if decide (location st' = dest /\ d >= 0) then 1
                else trial_success (trial_data e))
          /\ sd_violation (step_data e') = Some (l_violation L)
          /\ sd_reward (step_data e') = Some (l_reward L)
          /\ final_deadline (trial_data e') = Some (d - 1)
          /\ net_reward (trial_data e') =
               fadd (net_reward (trial_data e)) (l_reward L))
    /\ (primary_agent e ≠ Some (Agent.ident agent) ->
        done e' = done e /\ success e' = success e
        /\ step_data e' = step_data e /\ trial_data e' = trial_data e).
Proof.
  intros H. unfold Environment.act_locals in H. unfold_monad H.
  case_bool_decide as Hreg; [|done].
  case_bool_decide as Hact; [|done].
  destruct Hreg as [st Hst]. rewrite Hst in H. exists st.
  destruct (light_at e st) as [?|light] eqn:Hlight; [done|].
  destruct sa as [f|]; [|done]. exists f. simpl in H.
  destruct (Environment.deadline_penalty _ _ _ _ _ e agent st)
    as [?|pen] eqn:Hpen; [done|].
  destruct (classify action light (f e agent) (heading st))
    as [v hd] eqn:Hcl.
  destruct (decide (v = 0)) as [Hv|Hv];
    [destruct (decide (action ≠ None)) as [Hn|Hn];
     [destruct (wrap_move (bounds e) (items (location st)) hd)
        as [?|p'] eqn:Hw; [done|] |] |];
    apply act_tail_inv in H as (-> & Hag & Hprim & Hnot); simpl.
  - rewrite decide_True by done. rewrite decide_True by done.
    repeat (split; [done|]). split; [by exists p'|].
    split.
    + intros Hp. destruct (Hprim Hp) as (dest & d & Hrest).
      eexists _, dest, d. split; [|exact Hrest].
      rewrite Hag. simpl. apply lookup_insert_eq.
    + intros Hp. rewrite (Hnot Hp). done.
  - rewrite decide_True by done. rewrite decide_False by tauto.
    repeat (split; [done|]). split.
    + intros Hp. destruct (Hprim Hp) as (dest & d & Hrest).
      exists st, dest, d. split; [by rewrite Hag | exact Hrest].
    + intros Hp. rewrite (Hnot Hp). done.
  - rewrite decide_False by done. rewrite decide_False by tauto.
    repeat (split; [done|]). split.
    + intros Hp. destruct (Hprim Hp) as (dest & d & Hrest).
      exists st, dest, d. split; [by rewrite Hag | exact Hrest].
    + intros Hp. rewrite (Hnot Hp). done.
Qed.

(** *** The violation classes *)


Lemma light_for_cases st hd :
  light_for st hd = "green" \/ light_for st hd = "red".
Proof. unfold light_for. case_match; auto. Qed.

Lemma light_at_cases (e : env) st light :
  light_at e st = inr light -> light = "green" \/ light = "red".
Proof.
  unfold light_at. destruct (intersection_at e (location st)); [done|].
  intros [= <-]. apply light_for_cases.
Qed.


Lemma act_inv sa agent action rnd (e e' : env) r :
  act sa agent action rnd e = (e', inr r) <->
  exists L, act_locals sa agent action rnd e = (e', inr L) /\ l_reward L = r.
Proof.
  unfold Environment.act, mbind, M_bind, mret, M_ret. split.
  - destruct (act_locals sa agent action rnd e) as [e1 [err|L]]; [done|].
    intros [= <- <-]. by exists L.
  - intros (L & -> & <-). done.
Qed.

(** For the primary agent the violation, the light and the reward of
    the call are the ones the code itself records in [step_data]. *)
Lemma act_records_step sa agent action rnd (e e' : env) L :
  act_locals sa agent action rnd e = (e', inr L) ->
  primary_agent e = Some (Agent.ident agent) ->
  sd_violation (step_data e') = Some (l_violation L)
  /\ sd_reward (step_data e') = Some (l_reward L).
Proof.
  intros H Hp.
  apply act_locals_inv in H
    as (_ & _ & _ & _ & _ & _ & _ & _ & _ & _ & _ & _ & Hprim & _).
  destruct (Hprim Hp) as (st' & dest & d & _ & _ & _ & _ & _ & _ & Hv & Hr & _).
  done.
Qed.

(** *** The reward scheme *)


(** *** Driving forward *)

(** C2: when [act] returns from a call with action 'forward', the
    light it computed is 'red' or 'green'; on red the violation is 4
    exactly when the sensed 'left' or 'right' input is 'forward' and
    is 2 otherwise; on green the violation is 0. The light is the one
    of the agent's intersection and the inputs are what [sense]
    returned. *)
Theorem act_forward_violation sa agent rnd (e e' : env) L :
  act_locals sa agent (Some "forward") rnd e = (e', inr L) ->
  (exists st f, agent_states e !! Agent.ident agent = Some st
                /\ light_at e st = inr (l_light L)
                /\ sa = Some f /\ l_inputs L = f e agent)
  /\ (l_light L = "red" \/ l_light L = "green")
  /\ (l_light L = "red" ->
      (l_violation L = 4 <->
         in_left (l_inputs L) = Some "forward"
         \/ in_right (l_inputs L) = Some "forward")
      /\ (l_violation L = 2 <->
          ~ (in_left (l_inputs L) = Some "forward"
             \/ in_right (l_inputs L) = Some "forward")))
  /\ (l_light L = "green" -> l_violation L = 0).
Proof.
  intros H.
  apply act_locals_inv in H
    as (st & f & Hst & Hact & -> & Hlight & Hin & Hbase & Hpen & Hcl & _).
  split; [by exists st, f|].
  pose proof (light_at_cases _ _ _ Hlight) as Hcases.
  split; [tauto|].
  unfold classify in Hcl. rewrite decide_True in Hcl by done.
  split.
  - intros Hred. rewrite Hred in Hcl.
    rewrite decide_True in Hcl by done.
    case_decide; injection Hcl as <- _; split; split; try done; try lia;
      tauto.
  - intros Hgreen. rewrite Hgreen in Hcl.
    rewrite decide_False in Hcl by (intros Hne; by apply Hne).
    by injection Hcl as <- _.
Qed.

(** *** The stored state after a returning call *)

Lemma light_at_tuple (e : env) st light :
  light_at e st = inr light ->
  exists p tl, location st = PTuple p
               /\ od_get (intersections e) p = Some tl
               /\ light = light_for (TrafficLight.state tl) (heading st).
Proof.
  unfold light_at, intersection_at.
  destruct (location st) as [p|p]; [done|].
  destruct (od_get (intersections e) p) as [tl|] eqn:Hget; [|done].
  intros [= <-]. by exists p, tl.
Qed.

Lemma grid_ok_in_bounds (e : env) p tl :
  grid_ok e = true -> od_get (intersections e) p = Some tl ->
  in_bounds (bounds e) p = true.
Proof.
  unfold grid_ok. rewrite forallb_forall. intros Hall Hget.
  apply Hall. by eapply od_get_keys.
Qed.

Lemma act_locals_state sa agent action rnd (e e' : env) L :
  act_locals sa agent action rnd e = (e', inr L) ->
  exists st st',
    agent_states e !! Agent.ident agent = Some st
    /\ agent_states e' !! Agent.ident agent = Some st'
    /\ destination st' = destination st
    /\ deadline st' = deadline st
    /\ (l_violation L = 0 -> action ≠ None ->
        heading st' = l_heading L
        /\ exists p',
            wrap_move (bounds e) (items (location st)) (l_heading L) = inr p'
            /\ location st' = PTuple p')
    /\ (~ (l_violation L = 0 /\ action ≠ None) ->
        st' = st /\ agent_states e' = agent_states e).
Proof.
  intros H.
  apply act_locals_inv in H
    as (st & f & Hst & _ & _ & _ & _ & _ & _ & _ & _ & Hmove & _).
  exists st. case_decide as Hd.
  - destruct Hmove as (p' & Hw & ->).
    eexists. split; [done|]. split; [apply lookup_insert_eq|].
    simpl. repeat split; try done. by exists p'.
  - exists st. rewrite Hmove. repeat split; try done; tauto.
Qed.

(** *** Calls that return *)




(** *** Turning left *)

(** C3: when [act] returns from a call with action 'left': on a red
    light the violation is 4 if the sensed 'left' or 'right' input is
    'forward' or the sensed 'oncoming' input is 'right', and 2
    otherwise; on a green light it is 3 if the sensed 'oncoming' input
    is 'forward' or 'right'; otherwise the violation is 0 and the
    heading stored for the agent goes from (h0, h1) to (h1, -h0).
    After a violation the stored heading is the old one. *)
Theorem act_left_violation sa agent rnd (e e' : env) L :
  act_locals sa agent (Some "left") rnd e = (e', inr L) ->
  exists st st',
    agent_states e !! Agent.ident agent = Some st
    /\ agent_states e' !! Agent.ident agent = Some st'
    /\ (l_light L = "red" \/ l_light L = "green")
    /\ (l_light L = "red" ->
        ((in_left (l_inputs L) = Some "forward"
          \/ in_right (l_inputs L) = Some "forward"
          \/ in_oncoming (l_inputs L) = Some "right") ->
         l_violation L = 4)
        /\ (~ (in_left (l_inputs L) = Some "forward"
              \/ in_right (l_inputs L) = Some "forward"
              \/ in_oncoming (l_inputs L) = Some "right") ->
            l_violation L = 2))
    /\ (l_light L = "green" ->
        ((in_oncoming (l_inputs L) = Some "forward"
          \/ in_oncoming (l_inputs L) = Some "right") ->
         l_violation L = 3)
        /\ (~ (in_oncoming (l_inputs L) = Some "forward"
              \/ in_oncoming (l_inputs L) = Some "right") ->
            l_violation L = 0
            /\ heading st' = ((heading st).2, - (heading st).1)))
    /\ (l_violation L ≠ 0 -> heading st' = heading st).
Proof.
  intros H.
  destruct (act_locals_state _ _ _ _ _ _ _ H)
    as (st & st' & Hst & Hst' & _ & _ & Hmoved & Hstay).
  apply act_locals_inv in H
    as (st0 & f & Hst0 & _ & _ & Hlight & _ & _ & _ & Hcl & _).
  rewrite Hst in Hst0. injection Hst0 as <-.
  exists st, st'. split; [done|]. split; [done|].
  pose proof (light_at_cases _ _ _ Hlight) as Hcases.
  split; [tauto|].
  unfold classify in Hcl.
  rewrite decide_False, decide_True in Hcl by done.
  split; [|split].
  - intros Hred. rewrite Hred in Hcl.
    rewrite decide_True in Hcl by done.
    repeat case_decide; injection Hcl as <- _; split; try done; tauto.
  - intros Hgreen. rewrite Hgreen in Hcl.
    rewrite decide_False in Hcl by (intros Hne; by apply Hne).
    case_decide; injection Hcl as Hv Hh; split; try done; try tauto.
    intros _. split; [done|].
    destruct Hmoved as [-> _]; done.
  - intros Hv. destruct Hstay as [-> _]; [tauto|done].
Qed.

(** *** Violations do not move the agent *)

(** C4: when [act] returns with a non-zero violation, the state
    stored for the agent, hence its location and its heading, is the
    one stored before the call, no agent state changed at all, and
    the reward is the base term with the fixed penalty of the
    violation added. *)
Theorem act_violation_no_move sa agent action rnd (e e' : env) L :
  act_locals sa agent action rnd e = (e', inr L) ->
  l_violation L ≠ 0 ->
  agent_states e' = agent_states e
  /\ (exists st st',
        agent_states e !! Agent.ident agent = Some st
        /\ agent_states e' !! Agent.ident agent = Some st'
        /\ location st' = location st
        /\ heading st' = heading st)
  /\ l_reward L = punish (l_base L) (l_violation L).
Proof.
  intros H Hv.
  destruct (act_locals_state _ _ _ _ _ _ _ H)
    as (st & st' & Hst & Hst' & _ & _ & _ & Hstay).
  destruct Hstay as [-> Hsame]; [tauto|].
  split; [done|]. split; [by exists st, st|].
  apply act_locals_inv in H as (_ & _ & _ & _ & _ & _ & _ & _ & _ & _ & Hrew & _).
  by rewrite Hrew, decide_False.
Qed.

(** *** Reaching the destination *)

(** C9: when [act] returns for the primary agent and the location
    stored for it equals its destination, [done] is True and
    [success] is True, whatever the sign of the deadline. The deadline
    only decides the separate flag [trial_data['success']], set to 1
    when the deadline is not negative and left alone otherwise. *)
Theorem act_goal_reached sa agent action rnd (e e' : env) L st' :
  act_locals sa agent action rnd e = (e', inr L) ->
  primary_agent e = Some (Agent.ident agent) ->
  agent_states e' !! Agent.ident agent = Some st' ->
  destination st' = Some (location st') ->
  done e' = true /\ success e' = Some true
  /\ exists d, deadline st' = Some d
              /\ trial_success (trial_data e') =
                   (if decide (d >= 0) then 1
                    else trial_success (trial_data e)).
Proof.
  intros H Hp Hst' Hdest.
  apply act_locals_inv in H
    as (_ & _ & _ & _ & _ & _ & _ & _ & _ & _ & _ & _ & Hgoal & _).
  destruct (Hgoal Hp)
    as (st1 & dest & d & Hst1 & Hd1 & Hdl & Hdone & Hsucc & Hts & _).
  rewrite Hst' in Hst1. injection Hst1 as <-.
  rewrite Hdest in Hd1. injection Hd1 as <-.
  rewrite Hdone, Hsucc. rewrite !decide_True by done.
  split; [done|]. split; [done|]. exists d. split; [done|].
  rewrite Hts. repeat case_decide; try done; tauto.
Qed.

(** *** Movement on the torus *)

(** C5: when [act] returns from a legal move (violation 0, action not
    None) in an environment whose intersections lie inside its
    bounds, the old location (x, y) is a tuple inside the bounds and
    the new location is (x, y) plus the heading the agent ends with,
    reduced modulo the extent of the grid on each axis and offset by
    the lower bound; it lies inside the bounds. Heading east from the
    east boundary leads to the west boundary on the same row, and
    likewise west, south and north. *)
Theorem act_move_wraps sa agent action rnd (e e' : env) L b0 b1 b2 b3 :
  act_locals sa agent action rnd e = (e', inr L) ->
  l_violation L = 0 -> action ≠ None -> grid_ok e = true ->
  bounds e = (b0, b1, b2, b3) ->
  exists st st' x y h0 h1,
    agent_states e !! Agent.ident agent = Some st
    /\ agent_states e' !! Agent.ident agent = Some st'
    /\ location st = PTuple (x, y)
    /\ heading st' = (h0, h1)
    /\ (b0 <= x <= b2 /\ b1 <= y <= b3)
    /\ location st' =
         PTuple ((x + h0 - b0) `mod` (b2 - b0 + 1) + b0,
                 (y + h1 - b1) `mod` (b3 - b1 + 1) + b1)
    /\ in_bounds (bounds e) (items (location st')) = true
    /\ ((h0, h1) = (1, 0) -> x = b2 -> location st' = PTuple (b0, y))
    /\ ((h0, h1) = (-1, 0) -> x = b0 -> location st' = PTuple (b2, y))
    /\ ((h0, h1) = (0, 1) -> y = b3 -> location st' = PTuple (x, b1))
    /\ ((h0, h1) = (0, -1) -> y = b1 -> location st' = PTuple (x, b3)).
Proof.
  intros H Hv Hn Hgrid Hb.
  destruct (act_locals_state _ _ _ _ _ _ _ H)
    as (st & st' & Hst & Hst' & _ & _ & Hmoved & _).
  destruct (Hmoved Hv Hn) as (Hhd & p' & Hw & Hloc).
  apply act_locals_inv in H as (st0 & f & Hst0 & _ & _ & Hlight & _).
  rewrite Hst in Hst0. injection Hst0 as <-.
  apply light_at_tuple in Hlight as ([x y] & tl & Hp & Hget & _).
  pose proof (grid_ok_in_bounds _ _ _ Hgrid Hget) as Hin.
  destruct (l_heading L) as [h0 h1].
  exists st, st', x, y, h0, h1. rewrite Hloc, Hhd, Hp. rewrite Hp in Hw.
  clear Hmoved Hgrid Hget. rewrite Hb in *.
  unfold wrap_move, py_mod in Hw. unfold in_bounds in *. simpl in *.
  apply andb_prop in Hin as [Hx Hy].
  apply bool_decide_eq_true in Hx, Hy.
  rewrite !decide_False in Hw by lia. injection Hw as <-.
  repeat split; try done; try lia.
  - apply andb_true_intro. split; apply bool_decide_eq_true; simpl;
      apply wrap_in_range; lia.
  - intros [= -> ->] ->. by rewrite wrap_past_high, wrap_stay by lia.
  - intros [= -> ->] ->. by rewrite wrap_past_low, wrap_stay by lia.
  - intros [= -> ->] ->. by rewrite wrap_past_high, wrap_stay by lia.
  - intros [= -> ->] ->. by rewrite wrap_past_low, wrap_stay by lia.
Qed.

(** *** The colour of the light *)

Lemma light_for_green tl_state hd :
  light_for tl_state hd = "green" <->
  (tl_state = true /\ hd.2 ≠ 0) \/ (tl_state = false /\ hd.1 ≠ 0).
Proof.
  unfold light_for.
  destruct tl_state; simpl; case_bool_decide; split; intros Hh; try done.
  all: try (left; by split). all: try (right; by split).
  all: destruct Hh as [[? ?]|[? ?]]; done.
Qed.

Lemma light_for_red tl_state hd :
  light_for tl_state hd = "red" <-> light_for tl_state hd ≠ "green".
Proof.
  destruct (light_for_cases tl_state hd) as [-> | ->];
    intuition congruence.
Qed.

(** C8: at the intersection of the agent, the light computed by [act]
    is 'green' exactly when the signal is NS-open (state True) and
    the heading has a non-zero y-component, or the signal is EW-open
    (state False) and the heading has a non-zero x-component; it is
    'red' in every other case; and this is the light every returning
    call has used. *)
Theorem light_green_iff_open_axis (e : env) st tl :
  intersection_at e (location st) = inr tl ->
  (light_at e st = inr "green" <->
     (TrafficLight.state tl = true /\ (heading st).2 ≠ 0)
     \/ (TrafficLight.state tl = false /\ (heading st).1 ≠ 0))
  /\ (light_at e st = inr "red" <->
      ~ ((TrafficLight.state tl = true /\ (heading st).2 ≠ 0)
         \/ (TrafficLight.state tl = false /\ (heading st).1 ≠ 0)))
  /\ (forall sa agent action rnd e' L,
        agent_states e !! Agent.ident agent = Some st ->
        act_locals sa agent action rnd e = (e', inr L) ->
        light_at e st = inr (l_light L)).
Proof.
  intros Htl. unfold light_at. rewrite Htl.
  split; [|split].
  - rewrite <- light_for_green. split; [by intros [= ->]|by intros ->].
  - rewrite <- light_for_green, <- light_for_red.
    split; [by intros [= ->]|by intros ->].
  - intros sa agent action rnd e' L Hst H.
    apply act_locals_inv in H as (st0 & f & Hst0 & _ & _ & Hlight & _).
    rewrite Hst in Hst0. injection Hst0 as <-.
    unfold light_at in Hlight. by rewrite Htl in Hlight.
Qed.

(** *** Rejected calls *)

Lemma valid_actions_dec (action : Action) :
  action ∈ valid_actions <->
  action = None \/ action = Some "forward" \/ action = Some "left"
  \/ action = Some "right".
Proof.
  unfold valid_actions. rewrite !elem_of_cons, elem_of_nil. tauto.
Qed.

(** C6, as the code has it: a call for an agent that is not
    registered fails with the unknown-agent error whatever the
    action; a call for a registered agent with an action outside
    [None, 'forward', 'left', 'right'] fails with the invalid-action
    error; in both cases the environment after the call is the
    environment before it. *)
Theorem act_rejects sa agent action rnd (e : env) :
  (agent_states e !! Agent.ident agent = None ->
   act sa agent action rnd e = (e, inl UnknownAgentError))
  /\ (is_Some (agent_states e !! Agent.ident agent) ->
      action ∉ valid_actions ->
      act sa agent action rnd e = (e, inl InvalidActionError)).
Proof.
  unfold Environment.act, Environment.act_locals.
  split.
  - intros Hno. unfold_goal_monad. rewrite Hno.
    rewrite bool_decide_eq_false_2; [done|]. by intros [? ?].
  - intros Hreg Hbad. unfold_goal_monad.
    rewrite bool_decide_eq_true_2 by done.
    by rewrite bool_decide_eq_false_2.
Qed.

(** *** The missing method *)

(** C10, as the code has it: with the class as written (no [sense]),
    a call for a registered agent with a valid action never returns a
    reward: it raises an exception and leaves the environment as it
    was. The exception is the AttributeError of line 110 whenever
    line 109 could compute the light, that is whenever the stored
    location is a tuple that is a key of [intersections]. *)
Theorem act_without_sense_raises agent action rnd (e : env) st :
  agent_states e !! Agent.ident agent = Some st ->
  action ∈ valid_actions ->
  (forall e' r, act sense agent action rnd e ≠ (e', inr r))
  /\ (exists err, act sense agent action rnd e = (e, inl err))
  /\ (forall p tl,
        location st = PTuple p -> od_get (intersections e) p = Some tl ->
        act sense agent action rnd e = (e, inl AttributeError)).
Proof.
  intros Hst Hact.
  unfold Environment.act, Environment.act_locals. unfold_goal_monad.
  rewrite Hst. rewrite !bool_decide_eq_true_2 by (done || by eexists).
  unfold sense, getattr_sense, raise, light_at, intersection_at.
  destruct (location st) as [p|p].
  - split; [done|]. split; [by eexists|]. done.
  - destruct (od_get (intersections e) p) as [tl|] eqn:Hget.
    + split; [done|]. split; [by eexists|]. done.
    + split; [done|]. split; [by eexists|]. intros p' tl [= <-].
      by rewrite Hget.
Qed.

(** *** The constructor establishes the grid invariant *)

Lemma od_set_keys {V} (d : list ((Z * Z) * V)) k v k' :
  In k' (od_keys (od_set d k v)) -> k' = k \/ In k' (od_keys d).
Proof.
  induction d as [|[k0 v0] d IH]; simpl.
  - intros [<-|[]]. by left.
  - case_decide; simpl.
    + intros [<-|Hin]; [by left | right; by right].
    + intros [<-|Hin]; [right; by left |].
      destruct (IH Hin); [by left | right; by right].
Qed.

Lemma column_keys {V} (g : Z -> V) x ys (d : list ((Z * Z) * V)) k :
  In k (od_keys (foldl (fun d y => od_set d (x, y) (g y)) d ys)) ->
  In k (od_keys d) \/ (k.1 = x /\ In k.2 ys).
Proof.
  revert d. induction ys as [|y ys IH]; intros d; simpl; [by left|].
  intros Hin. destruct (IH _ Hin) as [Hd|[Hx Hy]].
  - destruct (od_set_keys _ _ _ _ Hd) as [->|Hd']; [right | by left].
    split; [done | by left].
  - right. split; [done | by right].
Qed.

Lemma grid_keys {V} (g : Z -> Z -> V) xs ys (d : list ((Z * Z) * V)) k :
  In k (od_keys
          (foldl (fun d x => foldl (fun d y => od_set d (x, y) (g x y)) d ys)
                 d xs)) ->
  In k (od_keys d) \/ (In k.1 xs /\ In k.2 ys).
Proof.
  revert d. induction xs as [|x xs IH]; intros d; simpl; [by left|].
  intros Hin. destruct (IH _ Hin) as [Hd|[Hx Hy]].
  - destruct (column_keys (g x) _ _ _ _ Hd) as [Hd'|[Hx Hy]]; [by left|].
    right. split; [by left | done].
  - right. split; [by right | done].
Qed.

Lemma in_range a b x : In x (range a b) -> a <= x < b.
Proof.
  unfold range. rewrite <- list_elem_of_In, elem_of_seqZ. lia.
Qed.

Lemma init_grid_ok verbose0 grid_size0 draws :
  grid_ok (Environment.__init__ of_int verbose0 grid_size0 draws) = true.
Proof.
  unfold grid_ok, Environment.__init__. simpl.
  apply forallb_forall. intros k Hin.
  apply (grid_keys
           (fun x y => TrafficLight.__init__ None None
                         (draws x y).1 (draws x y).2)) in Hin
    as [[]|[Hx Hy]].
  apply in_range in Hx, Hy.
  apply andb_true_intro. split; apply bool_decide_eq_true; lia.
Qed.

(** ** Further properties of [act] *)

(** *** What no call touches *)

(** The attributes of the environment that [act] only reads. *)
Definition same_setup (e e' : env) : Prop :=
  verbose e' = verbose e /\ t e' = t e /\ grid_size e' = grid_size e
  /\ bounds e' = bounds e /\ intersections e' = intersections e
  /\ primary_agent e' = primary_agent e
  /\ enforce_deadline e' = enforce_deadline e.

Lemma record_primary_frame agent action st light inputs v r (e e' : env) o :
  record_primary agent action st light inputs v r e = (e', o) ->
  same_setup e e'
  /\ agent_states e' = agent_states e
  /\ (done e = true -> done e' = true)
  /\ (success e = Some true -> success e' = Some true).
Proof.
  intros H. unfold Environment.record_primary in H.
  destruct (destination st) as [dest|]; unfold_monad H;
    [|injection H as <- _; by repeat split].
  destruct (deadline st) as [d|]; repeat case_decide; simpl in H;
    try (destruct (actions (trial_data e) !! v); simpl in H);
    injection H as <- _; by repeat split.
Qed.

Lemma act_locals_frame sa agent action rnd (e e' : env) o :
  act_locals sa agent action rnd e = (e', o) ->
  same_setup e e'
  /\ (forall k, k ≠ Agent.ident agent ->
           agent_states e' !! k = agent_states e !! k)
  /\ (done e = true -> done e' = true)
  /\ (success e = Some true -> success e' = Some true).
Proof.
  intros H. unfold Environment.act_locals in H. unfold_monad H.
  case_bool_decide as Hreg; [|injection H as <- _; by repeat split].
  case_bool_decide as Hact; [|injection H as <- _; by repeat split].
  destruct Hreg as [st Hst]. rewrite Hst in H.
  destruct (light_at e st) as [?|light];
    [injection H as <- _; by repeat split|].
  destruct sa as [f|]; simpl in H; [|injection H as <- _; by repeat split].
  destruct (Environment.deadline_penalty _ _ _ _ _ e agent st) as [?|pen];
    [injection H as <- _; by repeat split|].
  destruct (classify action light (f e agent) (heading st)) as [v hd].
  assert (Htail : forall (s : env) st1 reward L',
    same_setup e s ->
    (forall k, k ≠ Agent.ident agent ->
          agent_states s !! k = agent_states e !! k) ->
    done s = done e -> success s = success e ->
    (let (s', s1) :=
       (if decide (primary_agent e = Some (Agent.ident agent))
        then record_primary agent action st1 light (f e agent) v reward
        else fun s1 : env => (s1, inr ())) s in
     match s1 with
     | inl e0 => (s', inl e0)
     | inr _ => (s', inr L')
     end) = (e', o) ->
    same_setup e e'
    /\ (forall k, k ≠ Agent.ident agent ->
             agent_states e' !! k = agent_states e !! k)
    /\ (done e = true -> done e' = true)
    /\ (success e = Some true -> success e' = Some true)).
  { intros s st1 reward L' Hsetup Hothers Hdone Hsucc Ht.
    case_decide as Hp.
    - destruct (record_primary _ _ _ _ _ _ _ s) as [e1 o1] eqn:Hrp.
      apply record_primary_frame in Hrp as (Hs1 & Hag & Hd1 & Hs2).
      assert (e' = e1) as -> by (destruct o1; by injection Ht).
      rewrite Hdone in Hd1. rewrite Hsucc in Hs2.
      split; [|split; [|by split]].
      + unfold same_setup in *. intuition congruence.
      + intros k Hk. rewrite Hag. by apply Hothers.
    - injection Ht as <- _. rewrite Hdone, Hsucc.
      split; [done|]. split; [done|]. by split. }
  clear Hst.
  destruct (decide (v = 0)) as [Hv|Hv];
    [destruct (decide (action ≠ None)) as [Hn|Hn];
     [destruct (wrap_move (bounds e) (items (location st)) hd) as [?|p'];
      [injection H as <- _; by repeat split|] |] |].
  - eapply Htail; [| | | |exact H]; try done.
    intros k Hk. simpl. by rewrite lookup_insert_ne.
  - eapply Htail; [| | | |exact H]; done.
  - eapply Htail; [| | | |exact H]; done.
Qed.

(** Whether it returns or raises, [act] changes neither the clock, the
    grid, the lights, the bounds, the primary agent nor the deadline
    switch, it leaves the stored state of every other agent alone, and
    it never takes back [done] or [success]. *)
Theorem act_frame sa agent action rnd (e e' : env) o :
  act_locals sa agent action rnd e = (e', o) ->
  same_setup e e'
  /\ (forall k, k ≠ Agent.ident agent ->
           agent_states e' !! k = agent_states e !! k)
  /\ (done e = true -> done e' = true)
  /\ (success e = Some true -> success e' = Some true).
Proof. apply act_locals_frame. Qed.

(** *** Turning right and standing still *)

(** When [act] returns from a call with action 'right': on a light
    that is not green with 'forward' sensed on the left the violation
    is 3 and the stored heading stays; in every other case, red light
    included, the turn is legal and the stored heading goes from
    (h0, h1) to (-h1, h0). *)
Theorem act_right_violation sa agent rnd (e e' : env) L :
  act_locals sa agent (Some "right") rnd e = (e', inr L) ->
  exists st st',
    agent_states e !! Agent.ident agent = Some st
    /\ agent_states e' !! Agent.ident agent = Some st'
    /\ ((l_light L ≠ "green" /\ in_left (l_inputs L) = Some "forward") ->
        l_violation L = 3 /\ st' = st)
    /\ (~ (l_light L ≠ "green" /\ in_left (l_inputs L) = Some "forward") ->
        l_violation L = 0
        /\ heading st' = (- (heading st).2, (heading st).1)).
Proof.
  intros H.
  destruct (act_locals_state _ _ _ _ _ _ _ H)
    as (st & st' & Hst & Hst' & _ & _ & Hmoved & Hstay).
  apply act_locals_inv in H
    as (st0 & f & Hst0 & _ & _ & _ & _ & _ & _ & Hcl & _).
  rewrite Hst in Hst0. injection Hst0 as <-.
  exists st, st'. split; [done|]. split; [done|].
  unfold classify in Hcl.
  rewrite decide_False, decide_False, decide_True in Hcl by done.
  case_decide as Hc; injection Hcl as Hv Hh; split; try tauto.
  - intros _. split; [done|]. apply Hstay. rewrite <- Hv. lia.
  - intros _. split; [done|]. destruct Hmoved as [-> _]; done.
Qed.

(** When [act] returns from a call with action None: the violation is
    1 exactly when the light is green and the sensed 'oncoming' input
    is not 'left', and 0 otherwise; either way no stored agent state
    changes: the agent stays where it is and keeps its heading. *)
Theorem act_none_violation sa agent rnd (e e' : env) L :
  act_locals sa agent None rnd e = (e', inr L) ->
  (l_violation L = 1 <->
     l_light L = "green" /\ in_oncoming (l_inputs L) ≠ Some "left")
  /\ (l_violation L = 0 <->
      ~ (l_light L = "green" /\ in_oncoming (l_inputs L) ≠ Some "left"))
  /\ agent_states e' = agent_states e.
Proof.
  intros H.
  destruct (act_locals_state _ _ _ _ _ _ _ H)
    as (st & st' & Hst & Hst' & _ & _ & _ & Hstay).
  apply act_locals_inv in H
    as (st0 & f & Hst0 & _ & _ & _ & _ & _ & _ & Hcl & _).
  split; [|split; [|apply Hstay; tauto]];
    unfold classify in Hcl;
    rewrite decide_False, decide_False, decide_False, decide_True in Hcl
      by done;
    case_decide as Hc; injection Hcl as Hv Hh; rewrite <- Hv;
    split; intros; try done; try lia; tauto.
Qed.

(** *** Metrics of the primary agent *)

Lemma record_primary_full agent action st light inputs v r (e e' : env) u :
  record_primary agent action st light inputs v r e = (e', inr u) ->
  exists d n,
    deadline st = Some d
    /\ actions (trial_data e) !! v = Some n
    /\ step_data e' =
         mkStep (Some (t e)) (Some v) (Some (Agent.get_state agent)) (Some d)
           (Some (Agent.get_next_waypoint agent)) (Some inputs) (Some light)
           (Some action) (Some r)
    /\ actions (trial_data e') = <[v := n + 1]> (actions (trial_data e))
    /\ net_reward (trial_data e') = fadd (net_reward (trial_data e)) r
    /\ final_deadline (trial_data e') = Some (d - 1)
    /\ testing (trial_data e') = testing (trial_data e)
    /\ initial_distance (trial_data e') = initial_distance (trial_data e)
    /\ initial_deadline (trial_data e') = initial_deadline (trial_data e).
Proof.
  intros H. unfold Environment.record_primary in H.
  destruct (destination st) as [dest|]; unfold_monad H; [|done].
  destruct (deadline st) as [d|]; [|by case_decide].
  repeat case_decide; simpl in H;
    (destruct (actions (trial_data e) !! v) as [n|] eqn:Hn; simpl in H;
     [|done]);
    injection H as <- _; exists d, n; by repeat split.
Qed.

(** When [act] returns for the primary agent it has filled every key
    of [step_data] with the values of this call, added the reward to
    [net_reward], set [final_deadline] to the deadline minus one, and
    counted the violation: the counter of the call's violation class
    went up by one and the other counters are as before. *)
Theorem act_primary_metrics sa agent action rnd (e e' : env) L :
  act_locals sa agent action rnd e = (e', inr L) ->
  primary_agent e = Some (Agent.ident agent) ->
  exists st' d n,
    agent_states e' !! Agent.ident agent = Some st'
    /\ deadline st' = Some d
    /\ actions (trial_data e) !! l_violation L = Some n
    /\ step_data e' =
         mkStep (Some (t e)) (Some (l_violation L))
           (Some (Agent.get_state agent)) (Some d)
           (Some (Agent.get_next_waypoint agent)) (Some (l_inputs L))
           (Some (l_light L)) (Some action) (Some (l_reward L))
    /\ actions (trial_data e') !! l_violation L = Some (n + 1)
    /\ (forall k, k ≠ l_violation L ->
              actions (trial_data e') !! k = actions (trial_data e) !! k)
    /\ net_reward (trial_data e') =
         fadd (net_reward (trial_data e)) (l_reward L)
    /\ final_deadline (trial_data e') = Some (d - 1)
    /\ testing (trial_data e') = testing (trial_data e)
    /\ initial_distance (trial_data e') = initial_distance (trial_data e)
    /\ initial_deadline (trial_data e') = initial_deadline (trial_data e).
Proof.
  intros H Hp.
  destruct (act_locals_state _ _ _ _ _ _ _ H)
    as (st & st' & Hst & Hst' & _ & _ & _).
  unfold Environment.act_locals in H. unfold_monad H.
  rewrite Hst in H. rewrite !bool_decide_eq_true_2 in H by (by eexists).
  case_bool_decide as Hact; [|done].
  destruct (light_at e st) as [?|light]; [done|].
  destruct sa as [f|]; simpl in H; [|done].
  destruct (Environment.deadline_penalty _ _ _ _ _ e agent st) as [?|pen];
    [done|].
  destruct (classify action light (f e agent) (heading st)) as [v hd].
  destruct (decide (v = 0)) as [Hv|Hv];
    [destruct (decide (action ≠ None)) as [Hn|Hn];
     [destruct (wrap_move (bounds e) (items (location st)) hd) as [?|p'];
      [done|] |] |];
    cbv beta iota in H;
    rewrite (decide_True (P := primary_agent e = _)) in H by done;
    match type of H with
    | context [record_primary ?x1 ?x2 ?x3 ?x4 ?x5 ?x6 ?x7 ?x8] =>
        destruct (record_primary x1 x2 x3 x4 x5 x6 x7 x8)
          as [e1 [?|[]]] eqn:Hrp;
        [done|]; injection H as <- <-;
        pose proof (record_primary_frame _ _ _ _ _ _ _ _ _ _ Hrp)
          as (_ & Hag & _);
        apply record_primary_full in Hrp
          as (d & n & Hd & Hn' & Hsd & Hacts & Hnet & Hfin & Hrest)
    end;
    simpl in *; exists st', d, n; rewrite Hacts;
    (split; [done|]); (split; [|split; [done|split; [done|split;
      [apply lookup_insert_eq|split;
        [intros k Hk; by rewrite lookup_insert_ne|done]]]]]).
  - rewrite Hag in Hst'. simpl in Hst'. rewrite lookup_insert_eq in Hst'.
    by injection Hst' as <-.
  - rewrite Hag, Hst in Hst'. by injection Hst' as <-.
  - rewrite Hag, Hst in Hst'. by injection Hst' as <-.
Qed.

(** When [act] returns for an agent that is not the primary one, the
    environment differs from the one before the call in [agent_states]
    at most: no flag, no metric and no step record is written. *)
Theorem act_other_agent_only_moves sa agent action rnd (e e' : env) L :
  act_locals sa agent action rnd e = (e', inr L) ->
  primary_agent e ≠ Some (Agent.ident agent) ->
  e' = set_agent_states (agent_states e') e.
Proof.
  intros H Hp.
  pose proof (act_locals_frame _ _ _ _ _ _ _ H) as (Hsetup & _).
  apply act_locals_inv in H
    as (_ & _ & _ & _ & _ & _ & _ & _ & _ & _ & _ & _ & _ & Hnot).
  destruct (Hnot Hp) as (Hd & Hs & Hsd & Htd).
  destruct Hsetup as (? & ? & ? & ? & ? & ? & ?).
  destruct e, e'; simpl in *; by subst.
Qed.

(** *** Calls that raise *)

Lemma act_light_errors sa agent action rnd (e : env) st p :
  agent_states e !! Agent.ident agent = Some st ->
  action ∈ valid_actions ->
  (location st = PList p ->
   act sa agent action rnd e = (e, inl TypeError))
  /\ (location st = PTuple p -> od_get (intersections e) p = None ->
      act sa agent action rnd e = (e, inl KeyError)).
Proof.
  intros Hst Hact.
  unfold Environment.act, Environment.act_locals. unfold_goal_monad.
  rewrite Hst. rewrite !bool_decide_eq_true_2 by (done || by eexists).
  unfold light_at, intersection_at.
  split; [intros -> | intros -> ->]; done.
Qed.

(** For a registered agent and a valid action, whatever [sense] is:
    a location stored as a list makes [act] raise TypeError, a tuple
    that is not an intersection makes it raise KeyError; nothing is
    mutated. *)
Theorem act_location_errors sa agent action rnd (e : env) st p :
  agent_states e !! Agent.ident agent = Some st ->
  action ∈ valid_actions ->
  (location st = PList p ->
   act sa agent action rnd e = (e, inl TypeError))
  /\ (location st = PTuple p -> od_get (intersections e) p = None ->
      act sa agent action rnd e = (e, inl KeyError)).
Proof. apply act_light_errors. Qed.



(** *** Registering an agent *)



(** *** The grid built by [__init__] *)

Lemma od_get_set {V} (d : list ((Z * Z) * V)) k v k' :
  od_get (od_set d k v) k' = if decide (k = k') then Some v else od_get d k'.
Proof.
  induction d as [|[k0 v0] d IH]; simpl.
  - by repeat case_decide.
  - destruct (decide (k0 = k)) as [->|Hne]; simpl.
    + by repeat case_decide.
    + rewrite IH. repeat case_decide; congruence.
Qed.

Lemma column_get {V} (g : Z -> V) x ys (d : list ((Z * Z) * V)) x' y' :
  od_get (foldl (fun d y => od_set d (x, y) (g y)) d ys) (x', y')
  = if decide (x' = x /\ y' ∈ ys) then Some (g y') else od_get d (x', y').
Proof.
  revert d. induction ys as [|y ys IH]; intros d.
  - destruct (decide (x' = x /\ y' ∈ [])) as [[_ Hin]|_]; [|done].
    by apply elem_of_nil in Hin.
  - change (od_get (foldl (fun d y => od_set d (x, y) (g y))
                      (od_set d (x, y) (g y)) ys) (x', y') =
            if decide (x' = x /\ y' ∈ y :: ys) then Some (g y')
            else od_get d (x', y')).
    rewrite IH, od_get_set.
    destruct (decide (x' = x /\ y' ∈ ys)) as [H1|H1];
      destruct (decide (x' = x /\ y' ∈ y :: ys)) as [H2|H2];
      destruct (decide ((x, y) = (x', y'))) as [H3|H3];
      try (by simplify_eq);
      exfalso; rewrite ?elem_of_cons in *; intuition (simplify_eq; tauto).
Qed.

Lemma grid_get {V} (g : Z -> Z -> V) xs ys (d : list ((Z * Z) * V)) x' y' :
  od_get (foldl (fun d x => foldl (fun d y => od_set d (x, y) (g x y)) d ys)
                d xs) (x', y')
  = if decide (x' ∈ xs /\ y' ∈ ys) then Some (g x' y') else od_get d (x', y').
Proof.
  revert d. induction xs as [|x xs IH]; intros d.
  - destruct (decide (x' ∈ [] /\ y' ∈ ys)) as [[Hin _]|_]; [|done].
    by apply elem_of_nil in Hin.
  - change (od_get
              (foldl (fun d x =>
                        foldl (fun d y => od_set d (x, y) (g x y)) d ys)
                 (foldl (fun d y => od_set d (x, y) (g x y)) d ys) xs)
              (x', y') =
            if decide (x' ∈ x :: xs /\ y' ∈ ys) then Some (g x' y')
            else od_get d (x', y')).
    rewrite IH, (column_get (g x)).
    destruct (decide (x' ∈ xs /\ y' ∈ ys)) as [H1|H1];
      destruct (decide (x' ∈ x :: xs /\ y' ∈ ys)) as [H2|H2];
      destruct (decide (x' = x /\ y' ∈ ys)) as [H3|H3];
      try (by simplify_eq);
      try (destruct H3 as [-> _]; done);
      exfalso; rewrite ?elem_of_cons in *; intuition (simplify_eq; tauto).
Qed.

Lemma elem_of_range a b x : x ∈ range a b <-> a <= x < b.
Proof. unfold range. rewrite elem_of_seqZ. lia. Qed.

Lemma init_get verbose0 (grid_size0 : Z * Z) draws x y :
  od_get (intersections (Environment.__init__ of_int verbose0 grid_size0 draws))
         (x, y)
  = if decide (1 <= x <= grid_size0.1 /\ 2 <= y <= grid_size0.2 + 1)
    then Some (TrafficLight.__init__ None None (draws x y).1 (draws x y).2)
    else None.
Proof.
  unfold Environment.__init__. simpl.
  rewrite (grid_get (fun x y => TrafficLight.__init__ None None
                                  (draws x y).1 (draws x y).2)).
  simpl. repeat case_decide; try done; exfalso;
    rewrite !elem_of_range in *; lia.
Qed.

(** [__init__] puts a traffic light at exactly the coordinates inside
    the bounds (1, 2, columns, rows + 1), each built from its own two
    draws, and nowhere else. *)
Theorem init_intersections verbose0 (grid_size0 : Z * Z) draws x y :
  od_get (intersections (Environment.__init__ of_int verbose0 grid_size0 draws))
         (x, y)
  = if decide (1 <= x <= grid_size0.1 /\ 2 <= y <= grid_size0.2 + 1)
    then Some (TrafficLight.__init__ None None (draws x y).1 (draws x y).2)
    else None.
Proof. apply init_get. Qed.

(** Every point inside the bounds is an intersection. *)
Definition grid_full (e : env) : Prop :=
  forall p, in_bounds (bounds e) p = true -> is_Some (od_get (intersections e) p).

Lemma init_grid_full verbose0 grid_size0 draws :
  grid_full (Environment.__init__ of_int verbose0 grid_size0 draws).
Proof.
  intros [x y] Hin. rewrite init_get.
  unfold Environment.__init__, in_bounds in Hin. simpl in Hin.
  apply andb_prop in Hin as [Hx Hy]. apply bool_decide_eq_true in Hx, Hy.
  simpl in *. rewrite decide_True by lia. by eexists.
Qed.

Lemma od_set_fresh {V} (d : list ((Z * Z) * V)) k v :
  k ∉ od_keys d -> od_set d k v = (d ++ [(k, v)])%list.
Proof.
  unfold od_keys. induction d as [|[k0 v0] d IH]; simpl; [done|].
  intros Hn. apply not_elem_of_cons in Hn as [Hne Hn].
  rewrite decide_False by done. by rewrite IH.
Qed.

Lemma column_fill {V} (g : Z -> V) x ys (d : list ((Z * Z) * V)) :
  NoDup ys -> (forall y, y ∈ ys -> (x, y) ∉ od_keys d) ->
  foldl (fun d y => od_set d (x, y) (g y)) d ys
  = (d ++ ((fun y => ((x, y), g y)) <$> ys))%list.
Proof.
  revert d. induction ys as [|y ys IH]; intros d Hnd Hfresh; simpl.
  - by rewrite app_nil_r.
  - apply NoDup_cons in Hnd as [Hy Hnd].
    rewrite od_set_fresh by (apply Hfresh; by left).
    rewrite IH; [by rewrite <- app_assoc|done|].
    intros y' Hy'. unfold od_keys. rewrite fmap_app, elem_of_app.
    intros [Hin|Hin].
    + apply (Hfresh y'); [by right|done].
    + simpl in Hin. apply list_elem_of_singleton in Hin.
      injection Hin as ->. done.
Qed.

Lemma grid_fill {V} (g : Z -> Z -> V) xs ys (d : list ((Z * Z) * V)) :
  NoDup xs -> NoDup ys ->
  (forall x y, x ∈ xs -> (x, y) ∉ od_keys d) ->
  foldl (fun d x => foldl (fun d y => od_set d (x, y) (g x y)) d ys) d xs
  = (d ++ (xs ≫= fun x => (fun y => ((x, y), g x y)) <$> ys))%list.
Proof.
  revert d. induction xs as [|x xs IH]; intros d Hxs Hys Hfresh; simpl.
  - by rewrite app_nil_r.
  - apply NoDup_cons in Hxs as [Hx Hxs].
    rewrite (column_fill (g x)); [|done|intros y _; apply Hfresh; by left].
    rewrite IH; [by rewrite <- app_assoc|done|done|].
    intros x' y' Hx'. unfold od_keys. rewrite fmap_app, elem_of_app.
    intros [Hin|Hin].
    + apply (Hfresh x' y'); [by right|done].
    + apply list_elem_of_fmap in Hin as ([k v] & Hk & Hin).
      apply list_elem_of_fmap in Hin as (y & Hy & _).
      simpl in Hk. injection Hy as -> _. injection Hk as -> _. done.
Qed.

Lemma grid_keys_product {V} (g : Z -> Z -> V) (xs ys : list Z) :
  od_keys (xs ≫= fun x => (fun y => ((x, y), g x y)) <$> ys)
  = xs ≫= fun x => (fun y => (x, y)) <$> ys.
Proof.
  unfold od_keys. induction xs as [|x xs IH]; [done|].
  rewrite !bind_cons, fmap_app, IH. f_equal.
  rewrite <- list_fmap_compose. done.
Qed.

Lemma product_NoDup (xs ys : list Z) :
  NoDup xs -> NoDup ys -> NoDup (xs ≫= fun x => (fun y => (x, y)) <$> ys).
Proof.
  intros Hxs Hys. induction xs as [|x xs IH]; [constructor|].
  apply NoDup_cons in Hxs as [Hx Hxs]. rewrite bind_cons.
  apply NoDup_app. split; [|split].
  - apply NoDup_fmap_2; [|done]. by intros ?? [= ->].
  - intros [x' y'] Hin Hin'.
    apply list_elem_of_fmap in Hin as (y & [= -> ->] & _).
    apply list_elem_of_bind in Hin' as (x' & Hin' & Hx').
    apply list_elem_of_fmap in Hin' as (y' & [= -> ->] & _). done.
  - by apply IH.
Qed.

Lemma product_length {A B} (f : A -> list B) (xs : list A) n :
  (forall x, length (f x) = n) -> length (xs ≫= f) = (length xs * n)%nat.
Proof.
  intros Hn. induction xs as [|x xs IH]; [done|].
  rewrite bind_cons, length_app, Hn, IH. simpl. lia.
Qed.

(** The intersections are stored in column-major order, one entry per
    coordinate, so there are columns times rows of them. *)
Theorem init_intersections_order verbose0 (grid_size0 : Z * Z) draws :
  let e := Environment.__init__ of_int verbose0 grid_size0 draws in
  od_keys (intersections e)
  = (range 1 (grid_size0.1 + 1) ≫= fun x =>
       (fun y => (x, y)) <$> range 2 (grid_size0.2 + 2))
  /\ NoDup (od_keys (intersections e))
  /\ length (intersections e)
     = (Z.to_nat grid_size0.1 * Z.to_nat grid_size0.2)%nat.
Proof.
  simpl. unfold Environment.__init__. simpl.
  replace (grid_size0.2 + 1 + 1) with (grid_size0.2 + 2) by lia.
  rewrite (grid_fill (fun x y => TrafficLight.__init__ None None
                                   (draws x y).1 (draws x y).2));
    try apply NoDup_seqZ; [|intros x y _; apply not_elem_of_nil].
  simpl. rewrite grid_keys_product.
  split; [done|]. split.
  - apply product_NoDup; apply NoDup_seqZ.
  - rewrite (product_length _ _ (Z.to_nat grid_size0.2)).
    + unfold range. rewrite length_seqZ. f_equal. lia.
    + intros x. unfold range. rewrite length_fmap, length_seqZ. lia.
Qed.

(** *** Headings and turns *)

Lemma valid_headings_dec (hd : Z * Z) :
  hd ∈ valid_headings <->
  hd = (1, 0) \/ hd = (0, -1) \/ hd = (-1, 0) \/ hd = (0, 1).
Proof.
  unfold valid_headings. rewrite !elem_of_cons, elem_of_nil. tauto.
Qed.

Lemma classify_heading_valid action light inputs (hd : Z * Z) :
  hd ∈ valid_headings -> (classify action light inputs hd).2 ∈ valid_headings.
Proof.
  rewrite !valid_headings_dec. unfold classify.
  intros [->|[->|[->| ->]]]; repeat case_decide; simpl; tauto.
Qed.

Lemma classify_left_legal light inputs (hd : Z * Z) :
  (classify (Some "left") light inputs hd).1 = 0 ->
  (classify (Some "left") light inputs hd).2 = (hd.2, - hd.1).
Proof.
  unfold classify. rewrite decide_False, decide_True by done.
  repeat case_decide; simpl; done.
Qed.

Lemma classify_right_legal light inputs (hd : Z * Z) :
  (classify (Some "right") light inputs hd).1 = 0 ->
  (classify (Some "right") light inputs hd).2 = (- hd.2, hd.1).
Proof.
  unfold classify. rewrite decide_False, decide_False, decide_True by done.
  repeat case_decide; simpl; done.
Qed.

(** Whatever the action, the light and the traffic, the heading that
    lines 137-168 leave is one of E, N, W, S if the old one was; a
    legal left turn followed by a legal right turn, or the reverse,
    restores the heading, and so do four legal left turns. *)
Theorem classify_turns action light inputs (hd : Z * Z) :
  (hd ∈ valid_headings ->
   (classify action light inputs hd).2 ∈ valid_headings)
  /\ (forall light1 inputs1 light2 inputs2,
        let t1 := classify (Some "left") light1 inputs1 hd in
        let t2 := classify (Some "right") light2 inputs2 t1.2 in
        t1.1 = 0 -> t2.1 = 0 -> t2.2 = hd)
  /\ (forall light1 inputs1 light2 inputs2,
        let t1 := classify (Some "right") light1 inputs1 hd in
        let t2 := classify (Some "left") light2 inputs2 t1.2 in
        t1.1 = 0 -> t2.1 = 0 -> t2.2 = hd)
  /\ (forall l1 i1 l2 i2 l3 i3 l4 i4,
        let t1 := classify (Some "left") l1 i1 hd in
        let t2 := classify (Some "left") l2 i2 t1.2 in
        let t3 := classify (Some "left") l3 i3 t2.2 in
        let t4 := classify (Some "left") l4 i4 t3.2 in
        t1.1 = 0 -> t2.1 = 0 -> t3.1 = 0 -> t4.1 = 0 -> t4.2 = hd).
Proof.
  destruct hd as [h0 h1]. split; [|split; [|split]].
  - apply classify_heading_valid.
  - intros light1 inputs1 light2 inputs2 t1 t2 H1 H2.
    subst t2. rewrite (classify_right_legal _ _ _ H2).
    subst t1. rewrite (classify_left_legal _ _ _ H1). simpl.
    f_equal; lia.
  - intros light1 inputs1 light2 inputs2 t1 t2 H1 H2.
    subst t2. rewrite (classify_left_legal _ _ _ H2).
    subst t1. rewrite (classify_right_legal _ _ _ H1). simpl.
    f_equal; lia.
  - intros l1 i1 l2 i2 l3 i3 l4 i4 t1 t2 t3 t4 H1 H2 H3 H4.
    subst t4. rewrite (classify_left_legal _ _ _ H4).
    subst t3. rewrite (classify_left_legal _ _ _ H3).
    subst t2. rewrite (classify_left_legal _ _ _ H2).
    subst t1. rewrite (classify_left_legal _ _ _ H1). simpl.
    f_equal; lia.
Qed.

(** *** Moves compose *)

Lemma wrap_axis_compose lo hi a h h' :
  ((a + h - lo) `mod` (hi - lo + 1) + lo + h' - lo) `mod` (hi - lo + 1) + lo
  = (a + (h + h') - lo) `mod` (hi - lo + 1) + lo.
Proof.
  replace ((a + h - lo) `mod` (hi - lo + 1) + lo + h' - lo)
    with ((a + h - lo) `mod` (hi - lo + 1) + h') by lia.
  rewrite Zplus_mod_idemp_l.
  replace (a + h - lo + h') with (a + (h + h') - lo) by lia. done.
Qed.

Lemma wrap_axis_back lo hi a h :
  lo <= a <= hi ->
  ((a + h - lo) `mod` (hi - lo + 1) + lo + - h - lo) `mod` (hi - lo + 1) + lo
  = a.
Proof.
  intros Ha. rewrite wrap_axis_compose.
  replace (a + (h + - h) - lo) with (a + 0 - lo) by lia.
  by apply wrap_stay.
Qed.

(** On bounds with a positive extent on both axes a move never fails
    and ends inside the bounds; a move by [h] followed by a move by
    [h'] is the move by [h + h']; the move by (0, 0) from a point
    inside the bounds stays there, and a move followed by the opposite
    move leads back. *)
Theorem wrap_move_compose b0 b1 b2 b3 (p h h' : Z * Z) :
  b0 <= b2 -> b1 <= b3 ->
  exists q,
    wrap_move (b0, b1, b2, b3) p h = inr q
    /\ in_bounds (b0, b1, b2, b3) q = true
    /\ wrap_move (b0, b1, b2, b3) q h'
       = wrap_move (b0, b1, b2, b3) p (h.1 + h'.1, h.2 + h'.2)
    /\ (in_bounds (b0, b1, b2, b3) p = true ->
        wrap_move (b0, b1, b2, b3) p (0, 0) = inr p
        /\ wrap_move (b0, b1, b2, b3) q (- h.1, - h.2) = inr p).
Proof.
  intros Hx Hy. destruct p as [x y], h as [h0 h1], h' as [k0 k1].
  unfold wrap_move, py_mod, in_bounds.
  rewrite !decide_False by lia. eexists. split; [done|]. simpl.
  split; [|split].
  - apply andb_true_intro. split; apply bool_decide_eq_true;
      apply wrap_in_range; lia.
  - rewrite !decide_False by lia. by rewrite !wrap_axis_compose.
  - intros [Hpx Hpy]%andb_prop. apply bool_decide_eq_true in Hpx, Hpy.
    rewrite !decide_False by lia. split.
    + by rewrite !wrap_stay by lia.
    + by rewrite !wrap_axis_back by lia.
Qed.

(** *** Staying on the grid *)

Lemma wrap_move_in_bounds bnd p hd q :
  in_bounds bnd p = true -> wrap_move bnd p hd = inr q ->
  in_bounds bnd q = true.
Proof.
  destruct bnd as [[[b0 b1] b2] b3]. unfold in_bounds, wrap_move, py_mod.
  intros [Hx Hy]%andb_prop. apply bool_decide_eq_true in Hx, Hy.
  rewrite !decide_False by lia. intros [= <-]. simpl.
  apply andb_true_intro. split; apply bool_decide_eq_true;
    apply wrap_in_range; lia.
Qed.

(** On a grid whose intersections are exactly the points inside the
    bounds, as [__init__] builds it, a call that returns leaves the
    grid so, and leaves the agent with a tuple location that is an
    intersection and with a heading among E, N, W, S if it had one: the
    light of its next call can be computed. *)
Theorem act_keeps_on_grid sa agent action rnd (e e' : env) L st :
  act_locals sa agent action rnd e = (e', inr L) ->
  grid_ok e = true -> grid_full e ->
  agent_states e !! Agent.ident agent = Some st ->
  heading st ∈ valid_headings ->
  grid_ok e' = true /\ grid_full e'
  /\ exists st' light,
      agent_states e' !! Agent.ident agent = Some st'
      /\ heading st' ∈ valid_headings
      /\ light_at e' st' = inr light.
Proof.
  intros H Hok Hfull Hst Hhd.
  pose proof (act_locals_frame _ _ _ _ _ _ _ H)
    as ((_ & _ & _ & Hb & Hi & _) & _).
  destruct (act_locals_state _ _ _ _ _ _ _ H)
    as (st0 & st' & Hst0 & Hst' & _ & _ & Hmoved & Hstay).
  rewrite Hst in Hst0. injection Hst0 as <-.
  apply act_locals_inv in H
    as (st0 & f & Hst0 & _ & _ & Hlight & _ & _ & _ & Hcl & _).
  rewrite Hst in Hst0. injection Hst0 as <-.
  split; [unfold grid_ok; by rewrite Hb, Hi|].
  split; [unfold grid_full; by rewrite Hb, Hi|].
  exists st'.
  destruct (light_at_tuple _ _ _ Hlight) as (p & tl & Hp & Hget & _).
  destruct (decide (l_violation L = 0 /\ action ≠ None)) as [[Hv Hn]|Hno].
  - destruct (Hmoved Hv Hn) as (Hh & p' & Hw & Hloc).
    rewrite Hp in Hw. simpl in Hw.
    pose proof (wrap_move_in_bounds _ _ _ _
                  (grid_ok_in_bounds _ _ _ Hok Hget) Hw) as Hin.
    destruct (Hfull p' Hin) as [tl' Hget'].
    eexists. split; [done|]. split.
    + rewrite Hh.
      pose proof (classify_heading_valid action (l_light L) (l_inputs L)
                    (heading st) Hhd) as Hv'.
      by rewrite Hcl in Hv'.
    + unfold light_at, intersection_at. by rewrite Hloc, Hi, Hget'.
  - destruct (Hstay Hno) as [-> _].
    eexists. split; [done|]. split; [done|].
    unfold light_at, intersection_at. by rewrite Hp, Hi, Hget.
Qed.

(** *** Roads *)

Lemma od_keys_get {V} (d : list ((Z * Z) * V)) k :
  k ∈ od_keys d <-> is_Some (od_get d k).
Proof.
  unfold od_keys. induction d as [|[k0 v0] d IH]; simpl.
  - split; [intros Hin; by apply elem_of_nil in Hin | by intros [? ?]].
  - rewrite elem_of_cons. case_decide as Hk.
    + split; [by eexists | by left].
    + rewrite <- IH. split; [intros [->|?]; done | by right].
Qed.

Lemma inner_roads_spec keys a b :
  (a, b) ∈ inner_roads keys <->
  a ∈ keys /\ b ∈ keys /\ Z.abs (a.1 - b.1) + Z.abs (a.2 - b.2) = 1.
Proof.
  unfold inner_roads. rewrite list_elem_of_bind. split.
  - intros (a' & Hin & Ha). apply list_elem_of_bind in Hin as (b' & Hin & Hb).
    repeat case_decide; try (by apply elem_of_nil in Hin).
    apply list_elem_of_singleton in Hin. injection Hin as -> ->. done.
  - intros (Ha & Hb & Hd). exists a. split; [|done].
    apply list_elem_of_bind. exists b. split; [|done].
    rewrite decide_False by (intros ->; lia).
    rewrite decide_True by done. by apply list_elem_of_singleton.
Qed.

(** The roads that [__init__] lays between intersections join exactly
    the pairs of points inside the bounds at Manhattan distance 1, in
    both directions. No road joins the two ends of a row or column of
    more than two intersections, although a move made by [act] wraps
    from one end to the other. *)
Theorem init_roads verbose0 (grid_size0 : Z * Z) draws a b :
  let e := Environment.__init__ of_int verbose0 grid_size0 draws in
  let roads := inner_roads (od_keys (intersections e)) in
  ((a, b) ∈ roads <->
     in_bounds (bounds e) a = true /\ in_bounds (bounds e) b = true
     /\ Z.abs (a.1 - b.1) + Z.abs (a.2 - b.2) = 1)
  /\ ((a, b) ∈ roads -> (b, a) ∈ roads)
  /\ (forall y, 3 <= grid_size0.1 ->
            ((grid_size0.1, y), (1, y)) ∉ roads)
  /\ (forall y, 3 <= grid_size0.1 -> 2 <= y <= grid_size0.2 + 1 ->
            wrap_move (bounds e) (grid_size0.1, y) (1, 0) = inr (1, y)).
Proof.
  intros e roads. subst roads.
  assert (Hkey : forall p, p ∈ od_keys (intersections e)
                      <-> in_bounds (bounds e) p = true).
  { intros [x y]. rewrite od_keys_get. subst e. rewrite init_get.
    unfold Environment.__init__, in_bounds. simpl.
    rewrite andb_true_iff, !bool_decide_eq_true. simpl.
    case_decide as Hc; split; intros Hh.
    - lia.
    - by eexists.
    - by destruct Hh.
    - exfalso. apply Hc. lia. }
  split; [|split; [|split]].
  - rewrite inner_roads_spec, !Hkey. done.
  - rewrite !inner_roads_spec. intros (Ha & Hb & Hd).
    split; [done|]. split; [done|]. lia.
  - intros y Hw. rewrite inner_roads_spec. simpl. intros (_ & _ & Hd). lia.
  - intros y Hw Hy. subst e. unfold Environment.__init__, wrap_move, py_mod.
    simpl. rewrite !decide_False by lia.
    do 2 f_equal.
    + apply (wrap_past_high 1 grid_size0.1). lia.
    + apply (wrap_stay 2 (grid_size0.2 + 1)). lia.
Qed.

End Properties.


(** ** The base term in exact arithmetic *)

(** With rationals for floats, a draw in [0, 1) gives a base term in
    [-1, 1). *)
Lemma base_reward_exact_range (r : Q) :
  (0 <= r)%Q -> (r < 1)%Q ->
  (-1 <= Environment.base_reward inject_Z Qminus Qmult r)%Q
  /\ (Environment.base_reward inject_Z Qminus Qmult r < 1)%Q.
Proof.
  intros Hlo Hhi. unfold Environment.base_reward.
  change (inject_Z 2) with 2%Q. change (inject_Z 1) with 1%Q.
  split; lra.
Qed.

(** ** Concrete runs *)

Lemma run_south_returns :
  Environment.act_locals FInt FAdd FSub FMul FDiv Sym.math_pow
    (Sym.sense_fixed Sym.quiet) Sym.primary_forward (Some "forward") FRandom
    Sym.env_south
  = (Sym.final_env Sym.run_south, inr (Sym.returned Sym.run_south)).
Proof. vm_compute. reflexivity. Qed.

Lemma run_red_cross_returns :
  Environment.act_locals FInt FAdd FSub FMul FDiv Sym.math_pow
    (Sym.sense_fixed Sym.cross_left) Sym.car (Some "forward") FRandom
    Sym.env_east
  = (Sym.final_env Sym.run_red_cross, inr (Sym.returned Sym.run_red_cross)).
Proof. vm_compute. reflexivity. Qed.

Lemma run_left_returns :
  Environment.act_locals FInt FAdd FSub FMul FDiv Sym.math_pow
    (Sym.sense_fixed Sym.quiet) Sym.car (Some "left") FRandom Sym.env_turn
  = (Sym.final_env Sym.run_left, inr (Sym.returned Sym.run_left)).
Proof. vm_compute. reflexivity. Qed.

(** At (2, 3) heading east on an EW-open light, forward with no
    traffic is legal: the agent moves to (3, 3) and the reward is the
    base term plus 2, the action being the waypoint. *)
Example run_east_moves :
  Environment.l_violation (Sym.returned Sym.run_east) = 0
  /\ Environment.agent_states (Sym.final_env Sym.run_east) !! 7%nat
     = Some (Environment.mkState (PTuple (3, 3)) (1, 0) None None)
  /\ Sym.run_east.2
     = inr (Environment.mkLocals "green" Sym.quiet
              (FSub (FMul (FInt 2) FRandom) (FInt 1)) (Environment.NInt 0)
              0 (1, 0)
              (FAdd (FSub (FMul (FInt 2) FRandom) (FInt 1)) (FInt 2))).
Proof. vm_compute. repeat split. Qed.


(** Forward on red with cross traffic from the left: violation 4. *)
Lemma act_forward_violation_witness :
  Environment.l_light (Sym.returned Sym.run_red_cross) = "red"
  /\ Environment.l_violation (Sym.returned Sym.run_red_cross) = 4.
Proof.
  split; [reflexivity|].
  destruct (act_forward_violation FInt FAdd FSub FMul FDiv Sym.math_pow
              _ _ _ _ _ _ run_red_cross_returns)
    as (_ & _ & Hred & _).
  apply (Hred eq_refl). left. reflexivity.
Defined.

(** A legal left turn from heading south ends heading east. *)
Lemma act_left_violation_witness :
  Environment.l_violation (Sym.returned Sym.run_left) = 0
  /\ exists st',
      Environment.agent_states (Sym.final_env Sym.run_left) !! 7%nat = Some st'
      /\ Environment.heading st' = (1, 0).
Proof.
  destruct (act_left_violation FInt FAdd FSub FMul FDiv Sym.math_pow
              _ _ _ _ _ _ run_left_returns)
    as (st & st' & Hst & Hst' & _ & _ & Hgreen & _).
  assert (Hq : ~ (Environment.in_oncoming
                    (Environment.l_inputs (Sym.returned Sym.run_left))
                  = Some "forward"
                  \/ Environment.in_oncoming
                       (Environment.l_inputs (Sym.returned Sym.run_left))
                     = Some "right")).
  { intros [Hc|Hc]; discriminate Hc. }
  destruct (Hgreen eq_refl) as [_ Hlegal].
  destruct (Hlegal Hq) as [Hv Hh].
  split; [exact Hv|]. exists st'. split; [exact Hst'|].
  vm_compute in Hst. injection Hst as <-. exact Hh.
Defined.

(** After the violation the stored states are the ones before it. *)
Lemma act_violation_no_move_witness :
  Environment.agent_states (Sym.final_env Sym.run_red_cross)
  = Environment.agent_states Sym.env_east.
Proof.
  apply (act_violation_no_move FInt FAdd FSub FMul FDiv Sym.math_pow
           _ _ _ _ _ _ _ run_red_cross_returns).
  vm_compute. discriminate.
Defined.

(** Going south from the south boundary (3, 7) leads to (3, 2). *)
Lemma act_move_wraps_witness :
  exists st',
    Environment.agent_states (Sym.final_env Sym.run_south) !! 7%nat = Some st'
    /\ Environment.location st' = PTuple (3, 2).
Proof.
  destruct (act_move_wraps FInt FAdd FSub FMul FDiv Sym.math_pow
              _ _ _ _ _ _ _ 1 2 8 7 run_south_returns)
    as (st & st' & x & y & h0 & h1 & Hst & Hst' & Hloc & Hhd & _ & Hnew & _);
    [reflexivity | discriminate | vm_compute; reflexivity | reflexivity |].
  exists st'. split; [exact Hst'|].
  vm_compute in Hst. injection Hst as <-.
  injection Hloc as <- <-.
  vm_compute in Hst'. injection Hst' as <-.
  injection Hhd as <- <-. reflexivity.
Defined.

(** The destination is reached with the deadline at -1: the trial is
    done and successful, and [trial_data['success']] stays 0. *)
Lemma act_goal_reached_witness :
  Environment.done (Sym.final_env Sym.run_south) = true
  /\ Environment.success (Sym.final_env Sym.run_south) = Some true
  /\ Environment.trial_success
       (Environment.trial_data (Sym.final_env Sym.run_south)) = 0.
Proof.
  destruct (act_goal_reached FInt FAdd FSub FMul FDiv Sym.math_pow
              _ _ _ _ _ _ _
              (Environment.mkState (PTuple (3, 2)) (0, 1)
                 (Some (PTuple (3, 2))) (Some (-1)))
              run_south_returns)
    as (Hdone & Hsucc & d & Hd & Hts);
    [reflexivity | vm_compute; reflexivity | reflexivity |].
  split; [exact Hdone|]. split; [exact Hsucc|].
  injection Hd as <-. exact Hts.
Defined.

(** At (3, 7) the light is NS-open and the agent heads south: green. *)
Lemma light_green_iff_open_axis_witness :
  Environment.light_at Sym.env_south
    (Environment.mkState (PTuple (3, 7)) (0, 1) None None) = inr "green".
Proof.
  apply (proj1 (light_green_iff_open_axis FInt FAdd FSub FMul FDiv Sym.math_pow
                  Sym.env_south
                  (Environment.mkState (PTuple (3, 7)) (0, 1) None None)
                  (TrafficLight.mk true 3 0) eq_refl)).
  left. split; [reflexivity | discriminate].
Defined.

Lemma fly_invalid : Some "fly" ∉ Environment.valid_actions.
Proof.
  unfold Environment.valid_actions. rewrite !not_elem_of_cons.
  repeat split; try discriminate. apply not_elem_of_nil.
Qed.

Lemma forward_valid : Some "forward" ∈ Environment.valid_actions.
Proof. apply valid_actions_dec. right. left. reflexivity. Qed.

(** C6 as the claim words it fails for an unregistered agent with an
    invalid action: the call fails, but with the unknown-agent error. *)
Lemma act_invalid_action_of_unknown_agent :
  Environment.agent_states Sym.env0 !! 7%nat = None
  /\ (Some "fly" ∉ Environment.valid_actions)
  /\ Sym.act Environment.sense Sym.car (Some "fly") FRandom Sym.env0
     = (Sym.env0, inl UnknownAgentError)
  /\ Sym.act Environment.sense Sym.car (Some "fly") FRandom Sym.env0
     ≠ (Sym.env0, inl InvalidActionError).
Proof.
  split; [reflexivity|]. split; [apply fly_invalid|].
  assert (H : Sym.act Environment.sense Sym.car (Some "fly") FRandom Sym.env0
              = (Sym.env0, inl UnknownAgentError))
    by (vm_compute; reflexivity).
  split; [exact H|]. rewrite H. intros [= Hmsg].
Qed.

(** An unregistered agent is turned away; a registered one with the
    action 'fly' is turned away as well; the environment is untouched. *)
Lemma act_rejects_witness :
  Sym.act Environment.sense Sym.car (Some "forward") FRandom Sym.env0
  = (Sym.env0, inl UnknownAgentError)
  /\ Sym.act Environment.sense Sym.car (Some "fly") FRandom Sym.env_east
     = (Sym.env_east, inl InvalidActionError).
Proof.
  split.
  - apply (proj1 (act_rejects FInt FAdd FSub FMul FDiv Sym.math_pow
                    Environment.sense Sym.car (Some "forward") FRandom
                    Sym.env0)).
    reflexivity.
  - apply (proj2 (act_rejects FInt FAdd FSub FMul FDiv Sym.math_pow
                    Environment.sense Sym.car (Some "fly") FRandom
                    Sym.env_east)).
    + eexists. vm_compute. reflexivity.
    + apply fly_invalid.
Defined.

(** C10 as the claim words it fails for an agent registered by
    [create_agent]: its location is a list, and the call raises
    TypeError at line 109, before [sense] is looked up. *)
Lemma act_of_created_agent_raises_type_error :
  Environment.agent_states Sym.env_created !! 7%nat
  = Some (Environment.mkState (PList (1, 2)) (0, 1) None None)
  /\ (Some "forward" ∈ Environment.valid_actions)
  /\ Sym.act Environment.sense Sym.car (Some "forward") FRandom Sym.env_created
     = (Sym.env_created, inl TypeError)
  /\ Sym.act Environment.sense Sym.car (Some "forward") FRandom Sym.env_created
     ≠ (Sym.env_created, inl AttributeError).
Proof.
  split; [vm_compute; reflexivity|]. split; [apply forward_valid|].
  assert (H : Sym.act Environment.sense Sym.car (Some "forward") FRandom
                Sym.env_created
              = (Sym.env_created, inl TypeError))
    by (vm_compute; reflexivity).
  split; [exact H|]. rewrite H. intros [= Hmsg].
Qed.

(** With a tuple location on the grid the call gets to line 110 and
    raises AttributeError. *)
Lemma act_without_sense_raises_witness :
  Sym.act Environment.sense Sym.car (Some "forward") FRandom Sym.env_east
  = (Sym.env_east, inl AttributeError).
Proof.
  assert (Hst : Environment.agent_states Sym.env_east !! Agent.ident Sym.car
                = Some (Environment.mkState (PTuple (2, 3)) (1, 0) None None))
    by (vm_compute; reflexivity).
  destruct (act_without_sense_raises FInt FAdd FSub FMul FDiv Sym.math_pow
              Sym.car (Some "forward") FRandom Sym.env_east _ Hst forward_valid)
    as (_ & _ & Hattr).
  apply (Hattr (2, 3) (TrafficLight.mk true 3 0)); reflexivity.
Defined.

(** ** More on the traffic light *)

(** [TrafficLight()] draws its period from [2, 3, 4, 5] and starts at
    tick 0; arguments that are given are kept, [state=False] included. *)
Theorem light_init_period_range (state0 : option bool) (d1 d2 : nat) :
  let l := TrafficLight.__init__ state0 None d1 d2 in
  2 <= TrafficLight.period l <= 5
  /\ TrafficLight.last_updated l = 0
  /\ (forall b, state0 = Some b -> TrafficLight.state l = b)
  /\ (forall p, TrafficLight.period
                  (TrafficLight.__init__ state0 (Some p) d1 d2) = p).
Proof.
  simpl. split; [|split; [done|split; [intros b ->; done | done]]].
  unfold random_choice_ne.
  change (S (length [3; 4; 5])) with 4%nat.
  pose proof (Nat.mod_upper_bound d2 4 ltac:(lia)) as Hlt.
  destruct (d2 `mod` 4)%nat as [|[|[|[|k]]]]; simpl; lia.
Qed.

(** Calling [update] again with the same tick changes nothing when the
    period is positive; with a period that is not positive the light
    flips again at the same tick. *)
Theorem light_update_same_tick (l : TrafficLight.t) (tick : Z) :
  (0 < TrafficLight.period l ->
   TrafficLight.update (TrafficLight.update l tick) tick
   = TrafficLight.update l tick)
  /\ (TrafficLight.period l <= 0 ->
      tick - TrafficLight.last_updated l >= TrafficLight.period l ->
      TrafficLight.state
        (TrafficLight.update (TrafficLight.update l tick) tick)
      = TrafficLight.state l).
Proof.
  split.
  - intros Hp.
    destruct (TrafficLightSpec.update_cases l tick) as [[Hge ->]|[Hlt ->]].
    + unfold TrafficLight.update. simpl. by rewrite decide_False by lia.
    + unfold TrafficLight.update. by rewrite decide_False.
  - intros Hp Hge.
    destruct (TrafficLightSpec.update_cases l tick) as [[_ ->]|[Hlt _]];
      [|done].
    unfold TrafficLight.update. simpl. rewrite decide_True by lia.
    simpl. apply negb_involutive.
Qed.

Lemma div_succ_step (p n : Z) :
  1 <= p -> 0 <= n ->
  (n + 1 - p * (n / p) >= p ->
   (n + 1) / p = n / p + 1 /\ n + 1 = p * (n / p + 1))
  /\ (~ n + 1 - p * (n / p) >= p -> (n + 1) / p = n / p).
Proof.
  intros Hp Hn.
  pose proof (Z.div_mod n p ltac:(lia)) as Hdm.
  pose proof (Z.mod_pos_bound n p ltac:(lia)) as Hb.
  split; intros H.
  - split; [|lia].
    symmetry. apply (Z.div_unique (n + 1) p (n / p + 1) 0); lia.
  - symmetry. apply (Z.div_unique (n + 1) p (n / p) (n `mod` p + 1)); lia.
Qed.

Lemma light_run_consecutive_nat (l : TrafficLight.t) (n : nat) :
  1 <= TrafficLight.period l -> TrafficLight.last_updated l = 0 ->
  TrafficLight.run l (seqZ 1 (Z.of_nat n))
  = TrafficLight.mk
      (if Z.even (Z.of_nat n / TrafficLight.period l)
       then TrafficLight.state l else negb (TrafficLight.state l))
      (TrafficLight.period l)
      (TrafficLight.period l * (Z.of_nat n / TrafficLight.period l)).
Proof.
  intros Hp H0. unfold TrafficLight.run.
  induction n as [|n IH].
  - simpl. rewrite Z.div_0_l by lia. simpl. rewrite Z.mul_0_r.
    destruct l; simpl in *; by subst.
  - rewrite seqZ_S, foldl_app, IH. simpl.
    unfold TrafficLight.update. simpl. rewrite Nat2Z.inj_succ. unfold Z.succ.
    replace (1 + Z.of_nat n) with (Z.of_nat n + 1) by lia.
    destruct (div_succ_step (TrafficLight.period l) (Z.of_nat n) Hp
                ltac:(lia)) as [Hflip Hstay].
    case_decide as Hc.
    + destruct (Hflip Hc) as [-> Hlast]. rewrite Z.even_add. simpl.
      rewrite <- Hlast.
      by destruct (Z.even _), (TrafficLight.state l).
    + by rewrite (Hstay Hc).
Qed.

(** A light with period [p >= 1] that was last updated at tick 0 and is
    updated at the ticks 1, 2, ..., n has flipped [n / p] times: its
    phase is the initial one exactly when [n / p] is even, and its last
    flip was at tick [p * (n / p)]. *)
Theorem light_run_consecutive (l : TrafficLight.t) (n : Z) :
  1 <= TrafficLight.period l -> TrafficLight.last_updated l = 0 -> 0 <= n ->
  TrafficLight.run l (range 1 (n + 1))
  = TrafficLight.mk
      (if Z.even (n / TrafficLight.period l)
       then TrafficLight.state l else negb (TrafficLight.state l))
      (TrafficLight.period l)
      (TrafficLight.period l * (n / TrafficLight.period l)).
Proof.
  intros Hp H0 Hn. unfold range.
  replace (n + 1 - 1) with (Z.of_nat (Z.to_nat n)) by lia.
  rewrite (light_run_consecutive_nat l (Z.to_nat n) Hp H0).
  by rewrite Z2Nat.id.
Qed.

(** ** Concrete runs for the further properties *)

Lemma run_right_returns :
  Environment.act_locals FInt FAdd FSub FMul FDiv Sym.math_pow
    (Sym.sense_fixed Sym.quiet) Sym.car (Some "right") FRandom Sym.env_east
  = (Sym.final_env Sym.run_right, inr (Sym.returned Sym.run_right)).
Proof. vm_compute. reflexivity. Qed.

Lemma run_idle_returns :
  Environment.act_locals FInt FAdd FSub FMul FDiv Sym.math_pow
    (Sym.sense_fixed Sym.quiet) Sym.car None FRandom Sym.env_turn
  = (Sym.final_env Sym.run_idle, inr (Sym.returned Sym.run_idle)).
Proof. vm_compute. reflexivity. Qed.

(** A light of period 0 flips twice at the same tick. *)
Lemma light_update_same_tick_witness :
  TrafficLight.update (TrafficLight.update (TrafficLight.mk true 3 0) 4) 4
  = TrafficLight.update (TrafficLight.mk true 3 0) 4
  /\ TrafficLight.state
       (TrafficLight.update (TrafficLight.update (TrafficLight.mk true 0 0) 4) 4)
     = true.
Proof.
  split.
  - apply (proj1 (light_update_same_tick (TrafficLight.mk true 3 0) 4)).
    simpl. lia.
  - apply (proj2 (light_update_same_tick (TrafficLight.mk true 0 0) 4));
      simpl; lia.
Defined.

(** Period 3, ticks 1..7: two flips, the last one at tick 6. *)
Lemma light_run_consecutive_witness :
  TrafficLight.run (TrafficLight.mk true 3 0) (range 1 8)
  = TrafficLight.mk true 3 6.
Proof.
  apply (light_run_consecutive (TrafficLight.mk true 3 0) 7); simpl; lia.
Defined.

(** The red-light violation leaves bounds and lights as they were. *)
Lemma act_frame_witness :
  Environment.bounds (Sym.final_env Sym.run_red_cross) = (1, 2, 8, 7)
  /\ Environment.intersections (Sym.final_env Sym.run_red_cross)
     = Environment.intersections Sym.env_east.
Proof.
  destruct (act_frame FInt FAdd FSub FMul FDiv Sym.math_pow
              _ _ _ _ _ _ _ run_red_cross_returns)
    as ((_ & _ & _ & Hb & Hi & _) & _).
  split; [exact Hb | exact Hi].
Defined.

(** Right on red with no traffic: legal, heading east becomes south. *)
Lemma act_right_violation_witness :
  Environment.l_light (Sym.returned Sym.run_right) = "red"
  /\ Environment.l_violation (Sym.returned Sym.run_right) = 0
  /\ exists st',
      Environment.agent_states (Sym.final_env Sym.run_right) !! 7%nat = Some st'
      /\ Environment.heading st' = (0, 1).
Proof.
  split; [reflexivity|].
  destruct (act_right_violation FInt FAdd FSub FMul FDiv Sym.math_pow
              _ _ _ _ _ _ run_right_returns)
    as (st & st' & Hst & Hst' & _ & Hlegal).
  destruct Hlegal as [Hv Hh]; [intros [_ Hc]; discriminate Hc|].
  split; [exact Hv|]. exists st'. split; [exact Hst'|].
  vm_compute in Hst. injection Hst as <-. exact Hh.
Defined.

(** Standing still on green with no oncoming traffic: violation 1. *)
Lemma act_none_violation_witness :
  Environment.l_violation (Sym.returned Sym.run_idle) = 1
  /\ Environment.agent_states (Sym.final_env Sym.run_idle)
     = Environment.agent_states Sym.env_turn.
Proof.
  destruct (act_none_violation FInt FAdd FSub FMul FDiv Sym.math_pow
              _ _ _ _ _ _ run_idle_returns)
    as (Hone & _ & Hsame).
  split; [|exact Hsame].
  apply Hone. split; [reflexivity | discriminate].
Defined.

(** The legal move of the primary agent is counted under violation 0
    and the final deadline is -2. *)
Lemma act_primary_metrics_witness :
  Environment.actions
    (Environment.trial_data (Sym.final_env Sym.run_south)) !! 0 = Some 1
  /\ Environment.final_deadline
       (Environment.trial_data (Sym.final_env Sym.run_south)) = Some (-2).
Proof.
  destruct (act_primary_metrics FInt FAdd FSub FMul FDiv Sym.math_pow
              _ _ _ _ _ _ _ run_south_returns eq_refl)
    as (st' & d & n & Hst' & Hd & Hn & _ & Hcount & _ & _ & Hfin & _).
  vm_compute in Hst'. injection Hst' as <-. injection Hd as <-.
  vm_compute in Hn. injection Hn as <-.
  split; [exact Hcount | exact Hfin].
Defined.

(** The left turn of an agent that is not primary changes
    [agent_states] only. *)
Lemma act_other_agent_only_moves_witness :
  Sym.final_env Sym.run_left
  = Environment.set_agent_states
      (Environment.agent_states (Sym.final_env Sym.run_left)) Sym.env_turn.
Proof.
  apply (act_other_agent_only_moves FInt FAdd FSub FMul FDiv Sym.math_pow
           _ _ _ _ _ _ _ run_left_returns).
  discriminate.
Defined.

(** With a subclass that has [sense], the created agent still cannot
    act. *)
Lemma act_location_errors_witness :
  Sym.act (Sym.sense_fixed Sym.quiet) Sym.car (Some "forward") FRandom
    Sym.env_created
  = (Sym.env_created, inl TypeError).
Proof.
  apply (proj1 (act_location_errors FInt FAdd FSub FMul FDiv Sym.math_pow
                  (Sym.sense_fixed Sym.quiet) Sym.car (Some "forward") FRandom
                  Sym.env_created
                  (Environment.mkState (PList (1, 2)) (0, 1) None None)
                  (1, 2) ltac:(vm_compute; reflexivity) forward_valid)).
  reflexivity.
Defined.





(** On the 8 x 6 grid: east from (8, 3) leads to (1, 3), and west from
    there leads back. *)
Lemma wrap_move_compose_witness :
  Environment.wrap_move (1, 2, 8, 7) (8, 3) (1, 0) = inr (1, 3)
  /\ Environment.wrap_move (1, 2, 8, 7) (1, 3) (-1, 0) = inr (8, 3).
Proof.
  destruct (wrap_move_compose 1 2 8 7 (8, 3) (1, 0) (0, 0)
              ltac:(lia) ltac:(lia))
    as (q & Hq & _ & _ & Hback).
  assert (Hq' : q = (1, 3)) by (vm_compute in Hq; by injection Hq).
  subst q. split; [exact Hq|].
  apply Hback. reflexivity.
Defined.

(** After the legal left turn on the 8 x 6 grid the agent is still on
    an intersection with a valid heading. *)
Lemma act_keeps_on_grid_witness :
  exists st' light,
    Environment.agent_states (Sym.final_env Sym.run_left) !! 7%nat = Some st'
    /\ Environment.heading st' ∈ Environment.valid_headings
    /\ Environment.light_at (Sym.final_env Sym.run_left) st' = inr light.
Proof.
  destruct (act_keeps_on_grid FInt FAdd FSub FMul FDiv Sym.math_pow
              _ _ _ _ _ _ _
              (Environment.mkState (PTuple (2, 3)) (0, 1) None None)
              run_left_returns)
    as (_ & _ & Hrest).
  - vm_compute. reflexivity.
  - apply (init_grid_full FInt FAdd FSub FMul FDiv Sym.math_pow
             false (8, 6) (fun _ _ => (0, 1)%nat)).
  - vm_compute. reflexivity.
  - unfold Environment.valid_headings. rewrite !elem_of_cons. tauto.
  - exact Hrest.
Defined.

